(** * Quarterly greenhouse-gas emissions page: a model of [main.js]

    The page loads a JSON file of emission records, derives the selector
    options from it, and on every selection change filters the records,
    removes duplicates per (country, date), and redraws a multi-line chart
    and its legend.  This file embeds that program and proves the
    properties its specification states.

    Conventions.  A JavaScript string is a [string]; a [Date] is its time
    value in milliseconds, a [Z]; [null] and [undefined] are [None]; a
    [Map] or [Set] is a list in insertion order; an exception is the
    [Throw] completion.  The d3 functions the page calls are modelled from
    their documented behaviour and kept in the [d3] module. *)

From Stdlib Require Import List String Ascii ZArith QArith Qround Qcanon Bool Lia.
From Stdlib Require Import Sorting.Sorted Sorting.Permutation.
Import ListNotations.

Local Open Scope string_scope.
Local Open Scope list_scope.
Local Open Scope nat_scope.

Set Implicit Arguments.

(* ------------------------------------------------------------------ *)
(** * The language: completions, numbers, arrays, sets *)
(* ------------------------------------------------------------------ *)

Module JS.

(** Kinds of exception the page can meet. *)
Inductive Error : Type :=
| TypeError
| SyntaxError.

(** How an evaluation completes: normally with a value, or abruptly. *)
Inductive Completion (A : Type) : Type :=
| Normal (value : A)
| Throw (error : Error).

Arguments Normal {A} value.
Arguments Throw {A} error.

Definition bind {A B : Type} (c : Completion A) (k : A -> Completion B)
  : Completion B :=
  match c with
  | Normal a => k a
  | Throw e => Throw e
  end.

(** [mapM f l]: apply [f] from left to right, stop at the first throw. *)
Fixpoint mapM {A B : Type} (f : A -> Completion B) (l : list A)
  : Completion (list B) :=
  match l with
  | [] => Normal []
  | a :: l' =>
      bind (f a) (fun b => bind (mapM f l') (fun bs => Normal (b :: bs)))
  end.

(** The Number type: the doubles, seen as the rationals they denote,
    with the two infinities and NaN.  The two zeros are not told apart;
    no comparison of the language does. *)
Inductive number : Type :=
| NaN
| NegInfinity
| Finite (q : Qc)
| PosInfinity.

(** [a < b] *)
Definition lt (a b : number) : bool :=
  match a, b with
  | NaN, _ | _, NaN => false
  | NegInfinity, NegInfinity => false
  | NegInfinity, _ => true
  | _, NegInfinity => false
  | PosInfinity, _ => false
  | _, PosInfinity => true
  | Finite x, Finite y =>
      match (x ?= y)%Qc with Lt => true | _ => false end
  end.

(** [a >= b] *)
Definition ge (a b : number) : bool :=
  match a, b with
  | NaN, _ | _, NaN => false
  | _, _ => negb (lt a b)
  end.


(** A JSON scalar as the data file may hold it in the [emissions] field. *)
Inductive JSON : Type :=
| JNumber (n : number)
| JString (s : string).

Section Arrays.
Context {A : Type}.
Variable eq_dec : forall x y : A, {x = y} + {x <> y}.

(** [array.includes(x)] *)
Definition includes (array : list A) (x : A) : bool :=
  if in_dec eq_dec x array then true else false.

(** [array.indexOf(x)], with [None] for [-1]. *)
Fixpoint indexOf (array : list A) (x : A) : option nat :=
  match array with
  | [] => None
  | y :: array' =>
      if eq_dec y x then Some 0
      else option_map S (indexOf array' x)
  end.

(** [set.add(v)] on a [Set] kept as the list of its members in
    insertion order. *)
Definition Set_add (set : list A) (v : A) : list A :=
  if includes set v then set else set ++ [v].

(** [new Set(iterable)] *)
Definition new_Set (iterable : list A) : list A :=
  fold_left Set_add iterable [].
End Arrays.

Section Sort.
Context {A : Type}.
Variable comparefn : A -> A -> Z.

(** [array.sort(comparefn)] for a consistent comparator: the stable
    sort.  [x] is put before the first element it does not exceed. *)
Fixpoint insert (x : A) (sorted : list A) : list A :=
  match sorted with
  | [] => [x]
  | y :: sorted' =>
      if (comparefn x y <=? 0)%Z then x :: y :: sorted'
      else y :: insert x sorted'
  end.

Fixpoint sort (array : list A) : list A :=
  match array with
  | [] => []
  | x :: array' => insert x (sort array')
  end.
End Sort.

(** White space and line terminators, among the code units below 256. *)
Definition isWhiteSpace (c : ascii) : bool :=
  let n := nat_of_ascii c in
  ((9 <=? n) && (n <=? 13)) || (n =? 32) || (n =? 160).

Fixpoint trimStart (s : list ascii) : list ascii :=
  match s with
  | c :: s' => if isWhiteSpace c then trimStart s' else s
  | [] => []
  end.

Definition trim (s : list ascii) : list ascii :=
  rev (trimStart (rev (trimStart s))).

Definition digitIn (base : Z) (c : ascii) : option Z :=
  let n := nat_of_ascii c in
  let v :=
    if (48 <=? n) && (n <=? 57) then Some (n - 48)
    else if (97 <=? n) && (n <=? 102) then Some (n - 87)
    else if (65 <=? n) && (n <=? 70) then Some (n - 55)
    else None in
  match v with
  | Some v => if (Z.of_nat v <? base)%Z then Some (Z.of_nat v) else None
  | None => None
  end.

(** The leading digits: their value, their number, and the rest. *)
Fixpoint readDigits (base : Z) (s : list ascii) (acc : Z)
  : Z * nat * list ascii :=
  match s with
  | c :: s' =>
      match digitIn base c with
      | Some v =>
          let r := readDigits base s' (acc * base + v)%Z in
          (fst (fst r), S (snd (fst r)), snd r)
      | None => (acc, 0, s)
      end
  | [] => (acc, 0, [])
  end.

(** [ExponentPart], optional: the exponent and the rest. *)
Definition readExponent (s : list ascii) : option (Z * list ascii) :=
  match s with
  | ("e" | "E")%char :: s' =>
      let signed :=
        match s' with
        | "-"%char :: r => (true, r)
        | "+"%char :: r => (false, r)
        | _ => (false, s')
        end in
      let r := readDigits 10 (snd signed) 0 in
      if snd (fst r) =? 0 then None
      else Some (if fst signed then (- fst (fst r))%Z else fst (fst r), snd r)
  | _ => Some (0%Z, s)
  end.

(** [StrUnsignedDecimalLiteral] other than [Infinity] *)
Definition readDecimal (s : list ascii) : option Q :=
  let ip := readDigits 10 s 0 in
  let fp :=
    match snd ip with
    | "."%char :: r => readDigits 10 r 0
    | _ => (0%Z, 0, snd ip)
    end in
  if snd (fst ip) + snd (fst fp) =? 0 then None
  else
    match readExponent (snd fp) with
    | Some (e, []) =>
        Some ((inject_Z (fst (fst ip))
               + inject_Z (fst (fst fp))
                 / Qpower 10 (Z.of_nat (snd (fst fp))))
              * Qpower 10 e)%Q
    | _ => None
    end.

Definition readNonDecimal (base : Z) (s : list ascii) : number :=
  let r := readDigits base s 0 in
  match snd (fst r), snd r with
  | S _, [] => Finite (Q2Qc (inject_Z (fst (fst r))))
  | _, _ => NaN
  end.

Definition readSigned (negative : bool) (s : list ascii) : number :=
  if String.eqb (string_of_list_ascii s) "Infinity"
  then if negative then NegInfinity else PosInfinity
  else
    match readDecimal s with
    | Some q => Finite (Q2Qc (if negative then - q else q)%Q)
    | None => NaN
    end.

(** The numeric reading of a string, [StringToNumber] of the language,
    without the rounding to a double and without the overflow to an
    infinity: the value is the rational the literal denotes, which is
    the number the language reads when that rational is a double. *)
Definition StringNumericLiteral (s : string) : number :=
  match trim (list_ascii_of_string s) with
  | [] => Finite (Q2Qc 0)
  | "0"%char :: ("b" | "B")%char :: r => readNonDecimal 2 r
  | "0"%char :: ("o" | "O")%char :: r => readNonDecimal 8 r
  | "0"%char :: ("x" | "X")%char :: r => readNonDecimal 16 r
  | "-"%char :: r => readSigned true r
  | "+"%char :: r => readSigned false r
  | r => readSigned false r
  end.

(** [s.endsWith(suffix)] *)
Definition endsWith (s suffix : string) : bool :=
  (String.length suffix <=? String.length s) &&
  String.eqb
    (substring (String.length s - String.length suffix)
               (String.length suffix) s)
    suffix.

End JS.

Import JS.

Notation "x <- c ;; k" := (JS.bind c (fun x => k))
  (at level 61, c at next level, right associativity).

(* ------------------------------------------------------------------ *)
(** * The d3 functions the page calls *)
(* ------------------------------------------------------------------ *)

Module d3.

(** ** d3-array: [group], [rollup], [extent], [max] *)

Section Group.
Context {K V : Type}.
Variable eq_dec : forall x y : K, {x = y} + {x <> y}.

(** A group is an array that is never empty: its first element and
    the elements pushed after it. *)
Definition Group : Type := (V * list V)%type.

Definition to_array (g : Group) : list V := fst g :: snd g.

(** One turn of the grouping loop on the insertion-ordered map:
    [group = groups.get(key)]; push to it, or set [[value]]. *)
Fixpoint Map_push (groups : list (K * Group)) (key : K) (value : V)
  : list (K * Group) :=
  match groups with
  | [] => [(key, (value, []))]
  | (k, g) :: groups' =>
      if eq_dec k key then (k, (fst g, snd g ++ [value])) :: groups'
      else (k, g) :: Map_push groups' key value
  end.

Variable keyof : V -> Completion K.

Fixpoint group_into (groups : list (K * Group)) (values : list V)
  : Completion (list (K * Group)) :=
  match values with
  | [] => Normal groups
  | value :: values' =>
      key <- keyof value ;;
      group_into (Map_push groups key value) values'
  end.

Definition group (values : list V) : Completion (list (K * Group)) :=
  group_into [] values.
End Group.

(** [d3.rollup(values, reduce, key1, key2)]: a map from [key1] to a map
    from [key2] to the reduced group, both in insertion order.  The
    inner maps are built one outer group after the other. *)
Definition rollup {V R K1 K2 : Type}
    (eq1 : forall x y : K1, {x = y} + {x <> y})
    (eq2 : forall x y : K2, {x = y} + {x <> y})
    (values : list V) (reduce : Group (V:=V) -> R)
    (key1 : V -> Completion K1) (key2 : V -> Completion K2)
  : Completion (list (K1 * list (K2 * R))) :=
  groups <- group eq1 key1 values ;;
  mapM (fun kg : K1 * Group =>
          inner <- group eq2 key2 (to_array (snd kg)) ;;
          Normal (fst kg,
                  map (fun kg2 : K2 * Group => (fst kg2, reduce (snd kg2)))
                      inner))
       groups.

(** [d3.extent(values, valueof)] on dates: [null] is skipped, a date is
    compared through its time value. *)
Definition extent {A : Type} (values : list A) (valueof : A -> option Z)
  : option Z * option Z :=
  fold_left
    (fun (mm : option Z * option Z) (d : A) =>
       match valueof d with
       | None => mm
       | Some value =>
           match mm with
           | (None, _) => (Some value, Some value)
           | (Some min, max) =>
               (Some (if (min >? value)%Z then value else min),
                match max with
                | Some mx => Some (if (mx <? value)%Z then value else mx)
                | None => None
                end)
           end
       end)
    values (None, None).

(** [d3.max(values, valueof)] on numbers: the test is
    [max < value || (max === undefined && value >= value)]. *)
Definition max {A : Type} (values : list A) (valueof : A -> number)
  : option number :=
  fold_left
    (fun (max : option number) (d : A) =>
       let value := valueof d in
       if match max with
          | Some m => JS.lt m value
          | None => JS.ge value value
          end
       then Some value else max)
    values None.

(** ** d3-scale: the ordinal scale with the implicit unknown *)

Definition Color : Type := string.

(** d3-scale-chromatic *)
Definition schemeTableau10 : list Color :=
  ["#4e79a7"; "#f28e2c"; "#e15759"; "#76b7b2"; "#59a14f";
   "#edc949"; "#af7aa1"; "#ff9da7"; "#9c755f"; "#bab0ab"].

(** The scale's [index] map is the position in [domain]. *)
Record Ordinal : Type := {
  domain : list string;
  range : list Color
}.

Definition scaleOrdinal (range : list Color) : Ordinal :=
  {| domain := []; range := range |}.

(** [scale.domain(values)]: values already met are skipped. *)
Definition set_domain (scale : Ordinal) (values : list string) : Ordinal :=
  {| domain := fold_left (Set_add string_dec) values [];
     range := range scale |}.

Definition range_at (scale : Ordinal) (i : nat) : option Color :=
  nth_error (range scale) (i mod List.length (range scale)).

(** [scale(d)]: a value not met before is appended to the domain. *)
Definition call (scale : Ordinal) (d : string) : option Color * Ordinal :=
  match indexOf string_dec (domain scale) d with
  | Some i => (range_at scale i, scale)
  | None =>
      (range_at scale (List.length (domain scale)),
       {| domain := domain scale ++ [d]; range := range scale |})
  end.

(** ** d3-time-format: [utcParse("%Y-%m-%dT%H:%M:%S.%L")]

    Strings are read one character per code unit. *)

Definition isSpace (c : ascii) : bool :=
  let n := nat_of_ascii c in
  ((9 <=? n) && (n <=? 13)) || (n =? 32) || (n =? 160).

Definition digit (c : ascii) : option Z :=
  let n := nat_of_ascii c in
  if (48 <=? n) && (n <=? 57) then Some (Z.of_nat (n - 48)) else None.

Fixpoint spaces (s : list ascii) : nat :=
  match s with
  | c :: s' => if isSpace c then S (spaces s') else 0
  | [] => 0
  end.

(** The value and the number of the leading digits. *)
Fixpoint digits (acc : Z) (s : list ascii) : Z * nat :=
  match s with
  | c :: s' =>
      match digit c with
      | Some d => let r := digits (acc * 10 + d) s' in (fst r, S (snd r))
      | None => (acc, 0)
      end
  | [] => (acc, 0)
  end.

(** [numberRe = /^\s*\d+/] on a slice: the number matched and the
    length of the match. *)
Definition numberRe (slice : list ascii) : option (Z * nat) :=
  let k := spaces slice in
  let r := digits 0 (skipn k slice) in
  if snd r =? 0 then None else Some (fst r, k + snd r).

Inductive Directive : Type :=
| Field (width : nat)
| Literal (c : ascii).

(** [%Y-%m-%dT%H:%M:%S.%L] *)
Definition specifier : list Directive :=
  [Field 4; Literal "-"; Field 2; Literal "-"; Field 2; Literal "T";
   Field 2; Literal ":"; Field 2; Literal ":"; Field 2; Literal ".";
   Field 3].

(** [parseSpecifier]: the fields read, and what is left of the string;
    [None] for [-1]. *)
Fixpoint parseSpecifier (spec : list Directive) (rest : list ascii)
    (fields : list Z) : option (list Z * list ascii) :=
  match spec with
  | [] => Some (fields, rest)
  | directive :: spec' =>
      match rest with
      | [] => None
      | c :: rest' =>
          match directive with
          | Literal l =>
              if Ascii.eqb l c then parseSpecifier spec' rest' fields
              else None
          | Field width =>
              match numberRe (firstn width rest) with
              | Some (n, len) =>
                  parseSpecifier spec' (skipn len rest) (fields ++ [n])
              | None => None
              end
          end
      end
  end.

Local Open Scope Z_scope.

Definition msPerDay : Z := 86400000.

(** Days since the epoch of the first day of a month, [month] in 0..11. *)
Definition daysFromCivil (year month : Z) : Z :=
  let y := if month <? 2 then year - 1 else year in
  let era := y / 400 in
  let yoe := y - era * 400 in
  let mp := if month <? 2 then month + 10 else month - 2 in
  let doy := (153 * mp + 2) / 5 in
  let doe := yoe * 365 + yoe / 4 - yoe / 100 + doy in
  era * 146097 + doe - 719468.

(** The month (0..11) and the day of the month of a day number. *)
Definition civilFromDays (day : Z) : Z * Z :=
  let z := day + 719468 in
  let era := z / 146097 in
  let doe := z - era * 146097 in
  let yoe := (doe - doe / 1460 + doe / 36524 - doe / 146096) / 365 in
  let doy := doe - (365 * yoe + yoe / 4 - yoe / 100) in
  let mp := (5 * doy + 2) / 153 in
  let d := doy - (153 * mp + 2) / 5 + 1 in
  (if mp <? 10 then mp + 2 else mp - 10, d).

Definition MakeDay (year month date : Z) : Z :=
  daysFromCivil (year + month / 12) (month mod 12) + date - 1.

Definition MakeTime (hour min sec ms : Z) : Z :=
  hour * 3600000 + min * 60000 + sec * 1000 + ms.

Definition MakeDate (day time : Z) : Z := day * msPerDay + time.

(** [Date.UTC(year, month, date, hours, minutes, seconds, ms)] *)
Definition Date_UTC (year month date hours minutes seconds ms : Z) : Z :=
  let yr := if (0 <=? year) && (year <=? 99) then 1900 + year else year in
  MakeDate (MakeDay yr month date) (MakeTime hours minutes seconds ms).

(** [date.setUTCFullYear(year)] *)
Definition setUTCFullYear (t year : Z) : Z :=
  let md := civilFromDays (t / msPerDay) in
  MakeDate (MakeDay year (fst md) (snd md)) (t mod msPerDay).

Definition utcDate (y m d hours minutes seconds ms : Z) : Z :=
  if (0 <=? y) && (y <? 100)
  then setUTCFullYear (Date_UTC (-1) m d hours minutes seconds ms) y
  else Date_UTC y m d hours minutes seconds ms.

(** The parser: [null] unless the whole string is consumed. *)
Definition utcParse (s : string) : option Z :=
  match parseSpecifier specifier (list_ascii_of_string s) [] with
  | Some ([year; month; day; hours; minutes; seconds; ms], []) =>
      Some (utcDate year (month - 1) day hours minutes seconds ms)
  | _ => None
  end.

Local Close Scope Z_scope.

(** ** d3-scale: [nice()] of a linear scale, with the default count 10

    d3 computes the tick increment in doubles, with [Math.log10] and
    [Math.pow]; here it is computed on the rationals.  The two agree
    where every value met on the way is a double, as on the whole
    numbers of the data file below; they differ where the doubles round:
    of [[0, 0.07]] d3 makes [[0, 0.08]] and this function [[0, 0.07]].
    The properties of the page are stated for the rounding of any host;
    this one serves to evaluate the page on the data file below. *)

Fixpoint log10_up (fuel : nat) (q : Q) (p : Z) : Z :=
  match fuel with
  | O => p
  | S fuel' =>
      if Qle_bool (Qpower 10 (p + 1)) q then log10_up fuel' q (p + 1)
      else p
  end.

Fixpoint log10_down (fuel : nat) (q : Q) (p : Z) : Z :=
  match fuel with
  | O => p
  | S fuel' =>
      if Qle_bool (Qpower 10 p) q then p else log10_down fuel' q (p - 1)
  end.

(** [Math.floor(Math.log10(q))] for [0 < q]. *)
Definition floor_log10 (q : Q) : Z :=
  if Qle_bool 1 q
  then log10_up (Z.to_nat (Z.log2 (Qnum q)) + 1) q 0
  else log10_down (Z.to_nat (Z.log2 (Zpos (Qden q))) + 2) q (-1).

(** [tickIncrement(start, stop, 10)], the third component of
    [tickSpec]; [None] when [stop <= start], where d3 answers NaN or an
    infinity and [nice] leaves the scale as it is, at that turn of its
    loop or at the next. *)
Definition tickIncrement (start stop : Q) : option Q :=
  let step := ((stop - start) / 10)%Q in
  if Qle_bool step 0 then None
  else
    let power := floor_log10 step in
    let error := (step / Qpower 10 power)%Q in
    let factor : Q :=
      if Qle_bool 50 (error * error) then 10%Q
      else if Qle_bool 10 (error * error) then 5%Q
      else if Qle_bool 2 (error * error) then 2%Q
      else 1%Q in
    Some (if (power <? 0)%Z
          then (- (Qpower 10 (- power) / factor))%Q
          else (Qpower 10 power * factor)%Q).

Definition Qlt_bool (a b : Q) : bool := negb (Qle_bool b a).

(** [Math.floor] and [Math.ceil] *)
Definition floor (q : Q) : Q := inject_Z (Qfloor q).
Definition ceil (q : Q) : Q := inject_Z (Qceiling q).

(** The loop of [nice]: [Some] when the domain is set, [None] when the
    scale is returned as it was. *)
Fixpoint nice_loop (maxIter : nat) (prestep : option Q) (start stop : Q)
  : option (Q * Q) :=
  match maxIter with
  | O => None
  | S maxIter' =>
      match tickIncrement start stop with
      | None => None
      | Some step =>
          if match prestep with
             | Some p => Qeq_bool step p
             | None => false
             end
          then Some (start, stop)
          else if Qlt_bool 0 step
          then nice_loop maxIter' (Some step)
                 (floor (start / step) * step)%Q
                 (ceil (stop / step) * step)%Q
          else if Qlt_bool step 0
          then nice_loop maxIter' (Some step)
                 (ceil (start * step) / step)%Q
                 (floor (stop * step) / step)%Q
          else None
      end
  end.

Definition nice (domain : number * number) : number * number :=
  match domain with
  | (Finite a, Finite b) =>
      if Qle_bool a b
      then match nice_loop 10 None a b with
           | Some (start, stop) => (Finite (Q2Qc start), Finite (Q2Qc stop))
           | None => domain
           end
      else match nice_loop 10 None b a with
           | Some (start, stop) => (Finite (Q2Qc stop), Finite (Q2Qc start))
           | None => domain
           end
  | _ => domain
  end.

(** ** d3-selection: the keyed data join *)

(** The first node of each key, by its position in the group. *)
Fixpoint nodeByKeyValue (keys : list string) (i : nat)
    (byKey : list (string * nat)) : list (string * nat) :=
  match keys with
  | [] => byKey
  | key :: keys' =>
      nodeByKeyValue keys' (S i)
        (if includes string_dec (map fst byKey) key then byKey
         else byKey ++ [(key, i)])
  end.

Definition Map_get (byKey : list (string * nat)) (key : string)
  : option nat :=
  option_map snd (find (fun kv => String.eqb (fst kv) key) byKey).

Definition Map_delete (byKey : list (string * nat)) (key : string)
  : list (string * nat) :=
  filter (fun kv => negb (String.eqb (fst kv) key)) byKey.

(** Each datum with the node it is joined to ([update]), or none
    ([enter]). *)
Fixpoint bindKey (byKey : list (string * nat)) (data : list string)
  : list (string * option nat) :=
  match data with
  | [] => []
  | d :: data' =>
      match Map_get byKey d with
      | Some node => (d, Some node) :: bindKey (Map_delete byKey d) data'
      | None => (d, None) :: bindKey byKey data'
      end
  end.

(** [parent.insertBefore(child, next)] on children tagged with the index
    of their datum; [next = None] appends. *)
Fixpoint insertBefore {T : Type} (next : option nat) (child : nat * T)
    (children : list (nat * T)) : list (nat * T) :=
  match children with
  | [] => [child]
  | c :: children' =>
      if match next with
         | Some k => fst c =? k
         | None => false
         end
      then child :: c :: children'
      else c :: insertBefore next child children'
  end.

End d3.

(* ------------------------------------------------------------------ *)
(** * 1. Loading data *)
(* ------------------------------------------------------------------ *)

(** One row of the data file: the four categories and the date are
    strings, the emissions a number or a numeric string. *)
Module Datum.
Record t : Type := make {
  Country : string;
  Gas_Type : string;
  Industry : string;
  Seasonal_Adjustment : string;
  date : string;
  emissions : JSON
}.
End Datum.

Definition localPath : string := "./Data/quarterly_greenhouse_long.json".

Definition ghPagesPath : string :=
  "https://mattzidell.github.io/DSC_209_P3/P3/D3_Visualization_Web_App/Data/quarterly_greenhouse_long.json".

Definition isLocalhost (host : string) : bool :=
  String.eqb host "localhost" || String.eqb host "127.0.0.1"
  || String.eqb host "".

(** The hosted file on GitHub Pages, the local file otherwise. *)
Definition dataUrl (host : string) : string :=
  if endsWith host "github.io" && negb (isLocalhost host)
  then ghPagesPath else localPath.

(** What [console.error] has been called with. *)
Definition Console : Type := list (string * Error).

Section Loader.
Variable Response : Type.
(** The settled result of [fetch(url)] and of [response.json()]. *)
Variable fetch : string -> Completion Response.
Variable json : Response -> Completion (list Datum.t).

(** [loadEmissionData()]: the value its promise is settled with, and
    the console afterwards. *)
Definition loadEmissionData (host : string) (console : Console)
  : Completion (list Datum.t) * Console :=
  match (response <- fetch (dataUrl host) ;;
         emissionData <- json response ;;
         Normal emissionData)
  with
  | Normal emissionData => (Normal emissionData, console)
  | Throw error =>
      (Normal [], console ++ [("Error loading data:", error)])
  end.
End Loader.

(* ------------------------------------------------------------------ *)
(** * 2. Selectors *)
(* ------------------------------------------------------------------ *)

(** [getUniqueValues(data, key)]; the property name is given as the
    projection [d => d[key]]. *)
Definition getUniqueValues {D V : Type}
    (eq_dec : forall x y : V, {x = y} + {x <> y})
    (data : list D) (key : D -> V) : list V :=
  new_Set eq_dec (map key data).

(** What the page takes from its host: the numeric reading of a string
    ([+s]), the date parser ([parseDate], line 107) and the rounding of
    a linear scale's domain ([.nice()], line 159). *)
Class Host : Type := {
  StringToNumber : string -> number;
  parseDate : string -> option Z;
  nice : number * number -> number * number
}.

(** [+v] on a JSON scalar *)
Definition ToNumber `{Host} (v : JSON) : number :=
  match v with
  | JNumber n => n
  | JString s => StringToNumber s
  end.

(* ------------------------------------------------------------------ *)
(** * 3. SVG: what the page shows *)
(* ------------------------------------------------------------------ *)

(** A filtered point: [{country, date, emissions}]; the date is [null]
    when the parser refused the string. *)
Module Point.
Record t : Type := make {
  country : string;
  date : option Z;
  emissions : number
}.
End Point.

(** A line of the chart: its stroke, the points handed to the line
    generator, and its tooltip. *)
Record Path : Type := {
  stroke : option d3.Color;
  d : list Point.t;
  title : string
}.

(** The children of the chart group. *)
Inductive ChartNode : Type :=
| AxisBottom (domain : option Z * option Z)
| AxisLeft (domain : number * number)
| Lines (paths : list Path).

(** A row of the legend: its datum, the swatch and the label. *)
Record LegendItem : Type := {
  datum : string;
  background_color : option d3.Color;
  text : string
}.

(** The state of the page: the three selectors, the colour scale, the
    legend and the chart group. *)
Record Page : Type := {
  checked : list string;
  gas_select : string;
  industry_select : string;
  color : d3.Ordinal;
  legend : list LegendItem;
  chartGroup : list ChartNode
}.

(** [scale(d)] for each [d] in turn, the scale threaded through. *)
Fixpoint colors (scale : d3.Ordinal) (ds : list string)
  : list (option d3.Color) * d3.Ordinal :=
  match ds with
  | [] => ([], scale)
  | d :: ds' =>
      let cs := d3.call scale d in
      let rest := colors (snd cs) ds' in
      (fst cs :: fst rest, snd rest)
  end.

(* ------------------------------------------------------------------ *)
(** * 4. Visualization function *)
(* ------------------------------------------------------------------ *)

(** [date.getTime()], a [TypeError] on [null]. *)
Definition getTime (date : option Z) : Completion Z :=
  match date with
  | Some t => Normal t
  | None => Throw TypeError
  end.

(** The number a date is read as in [a.date - b.date]; [null] is 0. *)
Definition valueOf (date : option Z) : Z :=
  match date with
  | Some t => t
  | None => 0%Z
  end.

Definition byDate (a b : Point.t) : Z :=
  (valueOf (Point.date a) - valueOf (Point.date b))%Z.

(** Deduplicate by country + date (lines 137-145). *)
Definition filteredUnique (filtered : list Point.t)
  : Completion (list (string * list Point.t)) :=
  byCountry <-
    d3.rollup string_dec Z.eq_dec filtered
      (fun v => fst v)
      (fun d => Normal (Point.country d))
      (fun d => getTime (Point.date d)) ;;
  Normal (map (fun cm : string * list (Z * Point.t) =>
                 (fst cm, map snd (snd cm)))
              byCountry).

Section Visualization.
Context {host : Host}.
Variable emissionData : list Datum.t.

Definition countries : list string :=
  getUniqueValues string_dec emissionData Datum.Country.
Definition gasTypes : list string :=
  getUniqueValues string_dec emissionData Datum.Gas_Type.
Definition industries : list string :=
  getUniqueValues string_dec emissionData Datum.Industry.

(** The filter of lines 121-126. *)
Definition selected (selectedCountries : list string)
    (selectedGas selectedIndustry : string) (d : Datum.t) : bool :=
  includes string_dec selectedCountries (Datum.Country d)
  && String.eqb (Datum.Gas_Type d) selectedGas
  && String.eqb (Datum.Industry d) selectedIndustry
  && String.eqb (Datum.Seasonal_Adjustment d) "Seasonally Adjusted".

(** The map of lines 127-131. *)
Definition point (d : Datum.t) : Point.t :=
  {| Point.country := Datum.Country d;
     Point.date := parseDate (Datum.date d);
     Point.emissions := ToNumber (Datum.emissions d) |}.

Definition filtered (selectedCountries : list string)
    (selectedGas selectedIndustry : string) : list Point.t :=
  map point
    (filter (selected selectedCountries selectedGas selectedIndustry)
            emissionData).

(** The series as the line generator gets them: each array of
    [filteredUnique] sorted in place by line 195. *)
Definition series (selectedCountries : list string)
    (selectedGas selectedIndustry : string)
  : Completion (list (string * list Point.t)) :=
  unique <-
    filteredUnique (filtered selectedCountries selectedGas selectedIndustry) ;;
  Normal (map (fun cv : string * list Point.t =>
                 (fst cv, sort byDate (snd cv)))
              unique).

(** [updateLegend(selectedCountries)] (lines 211-238): the keyed join
    of the legend rows with the selection; rows that leave are
    removed, rows that enter are put before the next row that stays,
    the swatches of the entering rows are coloured first, then those
    of the rows that stay.  A row that enters is labelled with its
    datum (lines 233-234); a row that stays is given the datum and
    keeps the label it has. *)
Definition updateLegend (selectedCountries : list string) (pg : Page)
  : Page :=
  let byKey := d3.nodeByKeyValue (map datum (legend pg)) 0 [] in
  let joined :=
    combine (seq 0 (List.length selectedCountries))
            (d3.bindKey byKey selectedCountries) in
  let isEnter (b : nat * (string * option nat)) :=
    match snd (snd b) with None => true | Some _ => false end in
  let enter := filter isEnter joined in
  let update := filter (fun b => negb (isEnter b)) joined in
  let entering := colors (color pg) (map (fun b => fst (snd b)) enter) in
  let staying :=
    colors (snd entering) (map (fun b => fst (snd b)) update) in
  let label (b : nat * (string * option nat)) :=
    match snd (snd b) with
    | Some node => nth node (map text (legend pg)) (fst (snd b))
    | None => fst (snd b)
    end in
  let item (bc : (nat * (string * option nat)) * option d3.Color) :=
    (fst (fst bc),
     (snd (snd (fst bc)),
      {| datum := fst (snd (fst bc));
         background_color := snd bc;
         text := label (fst bc) |})) in
  let newItems := map item (combine enter (fst entering)) in
  let legendItems := map item (combine update (fst staying)) in
  let kept :=
    flat_map
      (fun i =>
         map (fun it => (fst it, snd (snd it)))
             (filter (fun it =>
                        match fst (snd it) with
                        | Some node => node =? i
                        | None => false
                        end)
                     legendItems))
      (seq 0 (List.length (legend pg))) in
  let next (j : nat) :=
    option_map fst
      (find (fun b => (j <? fst b) && negb (isEnter b)) joined) in
  let children :=
    fold_left
      (fun children it =>
         d3.insertBefore (next (fst it)) (fst it, snd (snd it)) children)
      newItems kept in
  {| checked := checked pg;
     gas_select := gas_select pg;
     industry_select := industry_select pg;
     color := snd staying;
     legend := map snd children;
     chartGroup := chartGroup pg |}.

(** The top of the vertical domain before rounding: [undefined] is
    read as NaN by the scale. *)
Definition top (allPoints : list Point.t) : number :=
  match d3.max allPoints Point.emissions with
  | Some m => m
  | None => NaN
  end.

(** [updateVisualization()] (lines 112-198): how it completes, and the
    page it leaves. *)
Definition updateVisualization (pg : Page) : Completion unit * Page :=
  let selectedCountries := checked pg in
  let selectedGas := gas_select pg in
  let selectedIndustry := industry_select pg in
  let pg := updateLegend selectedCountries pg in
  match
    filteredUnique (filtered selectedCountries selectedGas selectedIndustry)
  with
  | Throw error => (Throw error, pg)
  | Normal filteredUnique =>
      if List.length filteredUnique =? 0
      then
        (Normal tt,
         {| checked := checked pg;
            gas_select := gas_select pg;
            industry_select := industry_select pg;
            color := color pg;
            legend := legend pg;
            chartGroup := [] |})
      else
        let allPoints := flat_map snd filteredUnique in
        let x := d3.extent allPoints Point.date in
        let y := nice (Finite (Q2Qc 0), top allPoints) in
        let strokes := colors (color pg) (map fst filteredUnique) in
        let paths :=
          map (fun sv : option d3.Color * (string * list Point.t) =>
                 {| stroke := fst sv;
                    d := sort byDate (snd (snd sv));
                    title := fst (snd sv) |})
              (combine (fst strokes) filteredUnique) in
        (Normal tt,
         {| checked := checked pg;
            gas_select := gas_select pg;
            industry_select := industry_select pg;
            color := snd strokes;
            legend := legend pg;
            chartGroup := [AxisBottom x; AxisLeft y; Lines paths] |})
  end.

(* ---------------------------------------------------------------- *)
(** * 5. Interactivity *)
(* ---------------------------------------------------------------- *)

(** The page before the first drawing: the scale's domain is the list
    of countries, the first checkbox is checked, each dropdown shows
    its first option.  The value of a checkbox is taken to be the name
    it is built from (line 41), which holds of the names that are read
    back unchanged when written in an HTML attribute; the drawing
    itself is defined for any checked values. *)
Definition start : Page :=
  {| checked := firstn 1 countries;
     gas_select := hd "" gasTypes;
     industry_select := hd "" industries;
     color := d3.set_domain (d3.scaleOrdinal d3.schemeTableau10) countries;
     legend := [];
     chartGroup := [] |}.

(** A change event: the selectors as the user leaves them. *)
Record Change : Type := {
  checkboxes : list string;
  gas : string;
  industry : string
}.

(** The listener of every selector is [updateVisualization]; what it
    throws ends the listener and leaves the page as it is then. *)
Definition on_change (pg : Page) (ev : Change) : Page :=
  snd (updateVisualization
         {| checked := checkboxes ev;
            gas_select := gas ev;
            industry_select := industry ev;
            color := color pg;
            legend := legend pg;
            chartGroup := chartGroup pg |}).

(** The page after the first drawing and a sequence of changes. *)
Definition run (events : list Change) : Page :=
  fold_left on_change events (snd (updateVisualization start)).
End Visualization.

(* ------------------------------------------------------------------ *)
(** * The page in a browser with d3 *)
(* ------------------------------------------------------------------ *)

Definition browser : Host :=
  {| StringToNumber := JS.StringNumericLiteral;
     parseDate := d3.utcParse;
     nice := d3.nice |}.

(* ------------------------------------------------------------------ *)
(** * Vocabulary of the properties *)
(* ------------------------------------------------------------------ *)

(** [u] stands before [v] in [l]. *)
Definition before {A : Type} (u v : A) (l : list A) : Prop :=
  exists l1 l2 l3, l = l1 ++ u :: l2 ++ v :: l3.

(** The first occurrence of [u] in [l] comes before any [v]. *)
Definition first_before {A : Type} (u v : A) (l : list A) : Prop :=
  exists p q, l = p ++ u :: q /\ ~ In u p /\ ~ In v p /\ In v q.

(** The values of key [k], in the order of the input. *)
Definition keyed {K V : Type} (eq_dec : forall x y : K, {x = y} + {x <> y})
    (key : V -> K) (k : K) (values : list V) : list V :=
  filter (fun v => if eq_dec (key v) k then true else false) values.

(** [groups] is the grouping of [seen] by [key]: one group per key, each
    holding the values of its key in the order of the input. *)
Definition groups_of {K V : Type}
    (eq_dec : forall x y : K, {x = y} + {x <> y}) (key : V -> K)
    (groups : list (K * d3.Group (V:=V))) (seen : list V) : Prop :=
  NoDup (map fst groups)
  /\ (forall k g, In (k, g) groups ->
                  d3.to_array g = keyed eq_dec key k seen)
  /\ (forall v, In v seen -> In (key v) (map fst groups)).

(** The (country, date) pair a point is deduplicated by. *)
Definition pair_of (p : Point.t) : string * option Z :=
  (Point.country p, Point.date p).

(** [a === b] on dates that are both [null] or both a time value. *)
Definition same_date (a b : option Z) : bool :=
  match a, b with
  | Some ta, Some tb => (ta =? tb)%Z
  | None, None => true
  | _, _ => false
  end.

(** [a] is a dated point no later than the dated point [b]. *)
Definition no_later (a b : Point.t) : Prop :=
  match Point.date a, Point.date b with
  | Some ta, Some tb => (ta <= tb)%Z
  | _, _ => False
  end.

(** The time value a point is grouped by. *)
Definition time_of (p : Point.t) : Z := valueOf (Point.date p).

(** The test [q] has the (country, date) pair of [p]. *)
Definition same_pair (p q : Point.t) : bool :=
  String.eqb (Point.country q) (Point.country p)
  && same_date (Point.date q) (Point.date p).

(** [unique] is the deduplication of [filtered]: one series per country
    met, one point per date met in it, and each point the first of
    [filtered] with its pair. *)
Definition deduplicated (filtered : list Point.t)
    (unique : list (string * list Point.t)) : Prop :=
  NoDup (map fst unique)
  /\ (forall c pts,
        In (c, pts) unique ->
        pts <> []
        /\ NoDup (map Point.date pts)
        /\ (forall p, In p pts ->
                      Point.country p = c
                      /\ find (same_pair p) filtered = Some p))
  /\ (forall q,
        In q filtered ->
        exists pts p,
          In (Point.country q, pts) unique
          /\ In p pts /\ Point.date p = Point.date q).

(** What the loop of [extent] holds after the values [seen]. *)
Definition extent_of {A : Type} (valueof : A -> option Z)
    (mm : option Z * option Z) (seen : list A) : Prop :=
  match mm with
  | (None, None) => forall v, In v seen -> valueof v = None
  | (Some lo, Some hi) =>
      (exists v, In v seen /\ valueof v = Some lo)
      /\ (exists v, In v seen /\ valueof v = Some hi)
      /\ (forall v t, In v seen -> valueof v = Some t -> (lo <= t <= hi)%Z)
  | _ => False
  end.

(** What the loop of [max] holds after the values [seen]: nothing when
    all are NaN, else a value met that no value met exceeds. *)
Definition max_of {A : Type} (valueof : A -> number)
    (max : option number) (seen : list A) : Prop :=
  match max with
  | None => forall v, In v seen -> valueof v = NaN
  | Some m =>
      m <> NaN
      /\ (exists v, In v seen /\ valueof v = m)
      /\ (forall v, In v seen -> JS.lt m (valueof v) = false)
  end.

(** The vertical and the horizontal domain a chart shows. *)
Definition vertical (chart : list ChartNode) : option (number * number) :=
  match chart with
  | [_; AxisLeft domain; _] => Some domain
  | _ => None
  end.

Definition horizontal (chart : list ChartNode)
  : option (option Z * option Z) :=
  match chart with
  | [AxisBottom domain; _; _] => Some domain
  | _ => None
  end.

Definition lines (chart : list ChartNode) : list Path :=
  match chart with
  | [_; _; Lines paths] => paths
  | _ => []
  end.

(** The colour the scale gives a country at the start: the colour of
    the palette at the rank of the country in the list of countries. *)
Definition assigned (countries : list string) (c : string)
  : option d3.Color :=
  match indexOf string_dec countries c with
  | Some i =>
      nth_error d3.schemeTableau10 (i mod List.length d3.schemeTableau10)
  | None => None
  end.

(** The scale has the palette as its range and the countries at the
    start of its domain. *)
Definition keeps (countries : list string) (scale : d3.Ordinal) : Prop :=
  (exists extra, d3.domain scale = countries ++ extra)
  /\ d3.range scale = d3.schemeTableau10.

(** Every row of the legend and every line of the chart that stands for
    a country has the colour assigned to the country. *)
Definition stable (countries : list string) (pg : Page) : Prop :=
  keeps countries (color pg)
  /\ (forall item, In item (legend pg) ->
        In (datum item) countries ->
        background_color item = assigned countries (datum item))
  /\ (forall path, In path (lines (chartGroup pg)) ->
        In (title path) countries
        /\ stroke path = assigned countries (title path)).

(** [a] and [b] are dated and [a] is earlier than [b]. *)
Definition earlier (a b : Point.t) : Prop :=
  match Point.date a, Point.date b with
  | Some ta, Some tb => (ta < tb)%Z
  | _, _ => False
  end.

(** The chart group is empty, or holds the two axes and the lines: a
    horizontal domain between two dates, and one line at least, the
    lines of different countries and none without a point. *)
Definition complete (chart : list ChartNode) : Prop :=
  chart = []
  \/ exists lo hi y paths,
       chart = [AxisBottom (Some lo, Some hi); AxisLeft y; Lines paths]
       /\ (lo <= hi)%Z
       /\ paths <> []
       /\ NoDup (map title paths)
       /\ forall path, In path paths -> d path <> [].

(** The first row of a country in the legend, and the label the country
    has there: the label of that row, or, when the country has no row,
    its name, which is the label a row is given when it enters. *)
Definition first_of (rows : list LegendItem) (country : string)
  : option LegendItem :=
  find (fun row => String.eqb (datum row) country) rows.

Definition label_of (rows : list LegendItem) (country : string) : string :=
  match first_of rows country with
  | Some row => text row
  | None => country
  end.

(** [byKey] maps every country that has a row to the place of its first
    row, and no other. *)
Definition places (rows : list LegendItem) (byKey : list (string * nat))
  : Prop :=
  forall country,
    match d3.Map_get byKey country with
    | Some node =>
        first_of rows country <> None
        /\ nth_error rows node = first_of rows country
    | None => first_of rows country = None
    end.

(** The scale [s'] is the scale [s] with values appended to its domain. *)
Definition extends (s s' : d3.Ordinal) : Prop :=
  (exists extra, d3.domain s' = d3.domain s ++ extra)
  /\ d3.range s' = d3.range s.

(* ------------------------------------------------------------------ *)
(** * A small data file *)
(* ------------------------------------------------------------------ *)

Module Sample.

Definition row (country adjustment date : string) (emissions : JSON)
  : Datum.t :=
  {| Datum.Country := country;
     Datum.Gas_Type := "CO2";
     Datum.Industry := "Power";
     Datum.Seasonal_Adjustment := adjustment;
     Datum.date := date;
     Datum.emissions := emissions |}.

Definition usa_jan : Datum.t :=
  row "USA" "Seasonally Adjusted" "2020-01-01T00:00:00.000" (JString "10").
Definition usa_jan_again : Datum.t :=
  row "USA" "Seasonally Adjusted" "2020-01-01T00:00:00.000" (JString "99").
Definition usa_jan_raw : Datum.t :=
  row "USA" "Not Adjusted" "2020-01-01T00:00:00.000" (JString "50").
Definition canada_apr : Datum.t :=
  row "Canada" "Seasonally Adjusted" "2020-04-01T00:00:00.000"
      (JNumber (Finite (Q2Qc 75))).
Definition usa_apr : Datum.t :=
  row "USA" "Seasonally Adjusted" "2020-04-01T00:00:00.000" (JString "20").
Definition canada_jan : Datum.t :=
  row "Canada" "Seasonally Adjusted" "2020-01-01T00:00:00.000"
      (JNumber (Finite (Q2Qc 60))).
Definition usa_jul_short : Datum.t :=
  row "USA" "Seasonally Adjusted" "2020-07-01" (JString "30").

Definition data : list Datum.t :=
  [usa_jan_raw; usa_jan; usa_jan_again; canada_apr; usa_apr; canada_jan].

(** The same file with one more row, whose date has no time part. *)
Definition broken : list Datum.t := data ++ [usa_jul_short].

(** A file of one row whose emissions are not a numeric string. *)
Definition usa_jan_unread : Datum.t :=
  row "USA" "Seasonally Adjusted" "2020-01-01T00:00:00.000" (JString "n/a").
Definition unread : list Datum.t := [usa_jan_unread].

(** The page with the given countries checked. *)
Definition page (checked : list string) : Page :=
  {| checked := checked;
     gas_select := "CO2";
     industry_select := "Power";
     color := color (start data);
     legend := [];
     chartGroup := [] |}.

(** The page with Canada and the USA checked and a row of the USA in
    the legend, which has another label than its country. *)
Definition relabelled : Page :=
  {| checked := ["Canada"; "USA"];
     gas_select := "CO2";
     industry_select := "Power";
     color := color (start data);
     legend := [{| datum := "USA";
                   background_color := None;
                   text := "United States" |}];
     chartGroup := [] |}.

End Sample.

(* ================================================================== *)
(** * Properties *)
(* ================================================================== *)

Unset Implicit Arguments.


Ltac inv H := inversion H; subst; clear H.

(** ** Arrays and sets *)

Section SetFacts.
Context {A : Type}.
Variable eq_dec : forall x y : A, {x = y} + {x <> y}.

Lemma includes_true (l : list A) (x : A) :
  includes eq_dec l x = true <-> In x l.
Proof.
  unfold includes. destruct (in_dec eq_dec x l); split; intros;
    try reflexivity; try assumption; try discriminate; contradiction.
Qed.

Lemma includes_false (l : list A) (x : A) :
  includes eq_dec l x = false <-> ~ In x l.
Proof.
  unfold includes. destruct (in_dec eq_dec x l); split; intros;
    try reflexivity; try assumption; try discriminate; contradiction.
Qed.

Lemma before_in (u v : A) (l : list A) :
  before u v l -> In u l /\ In v l.
Proof.
  intros (l1 & l2 & l3 & ->). split.
  - apply in_or_app. right. left. reflexivity.
  - apply in_or_app. right. right. apply in_or_app. right. left.
    reflexivity.
Qed.

Lemma before_cons (a u v : A) (l : list A) :
  before u v (a :: l) -> (a = u /\ In v l) \/ before u v l.
Proof.
  intros (l1 & l2 & l3 & E). destruct l1 as [|b l1]; simpl in E.
  - inv E. left. split; [reflexivity|].
    apply in_or_app. right. left. reflexivity.
  - inv E. right. exists l1, l2, l3. reflexivity.
Qed.

(** Adding the values one by one extends the set by the values not
    yet in it, each where it is first met. *)
Lemma Set_fold (values : list A) : forall set : list A,
  exists ext,
    fold_left (Set_add eq_dec) values set = set ++ ext
    /\ NoDup ext
    /\ (forall v, In v ext <-> In v values /\ ~ In v set)
    /\ (forall u v, before u v ext -> first_before u v values).
Proof.
  induction values as [|v0 values IH]; intros set; simpl.
  - exists []. rewrite app_nil_r.
    split; [reflexivity | split; [constructor | split]].
    + intros v. simpl. tauto.
    + intros u v H. apply before_in in H. destruct H as [[] _].
  - unfold Set_add at 2. destruct (includes eq_dec set v0) eqn:Hin.
    + apply includes_true in Hin.
      destruct (IH set) as (ext & E & ND & Hmem & Hord).
      exists ext. split; [exact E | split; [exact ND | split]].
      * intros v. rewrite Hmem. simpl. split; [tauto|].
        intros [[<- | H] Hn]; [contradiction | auto].
      * intros u v H.
        assert (Hu : ~ In u set).
        { apply before_in in H. destruct H as [Hu _].
          apply Hmem in Hu. tauto. }
        assert (Hv : ~ In v set).
        { apply before_in in H. destruct H as [_ Hv].
          apply Hmem in Hv. tauto. }
        destruct (Hord u v H) as (p & q & -> & Hup & Hvp & Hvq).
        exists (v0 :: p), q. repeat split; auto.
        -- intros [-> | H']; auto.
        -- intros [-> | H']; auto.
    + apply includes_false in Hin.
      destruct (IH (set ++ [v0])) as (ext & E & ND & Hmem & Hord).
      exists (v0 :: ext). rewrite E, <- app_assoc. simpl.
      split; [reflexivity | split; [| split]].
      * constructor; auto. intros H. apply Hmem in H.
        destruct H as [_ H]. apply H. apply in_or_app. right. now left.
      * intros v. split.
        -- intros [<- | H]; [split; [now left | assumption]|].
           apply Hmem in H. destruct H as [H1 H2]. split; [now right|].
           intros H'. apply H2. apply in_or_app. now left.
        -- intros [[<- | H] Hn]; [now left|].
           destruct (eq_dec v0 v) as [<- | Hne]; [now left|].
           right. apply Hmem. split; auto. intros H'.
           apply in_app_or in H'. destruct H' as [H' | [H' | []]]; auto.
      * intros u v H. apply before_cons in H.
        destruct H as [[<- Hv] | H].
        -- exists [], values. simpl. repeat split; auto.
           apply Hmem in Hv. tauto.
        -- assert (Hu : u <> v0).
           { apply before_in in H. destruct H as [Hu _].
             apply Hmem in Hu. destruct Hu as [_ Hu]. intros ->.
             apply Hu. apply in_or_app. right. now left. }
           assert (Hv : v <> v0).
           { apply before_in in H. destruct H as [_ Hv].
             apply Hmem in Hv. destruct Hv as [_ Hv]. intros ->.
             apply Hv. apply in_or_app. right. now left. }
           destruct (Hord u v H) as (p & q & -> & Hup & Hvp & Hvq).
           exists (v0 :: p), q. repeat split; auto.
           ++ intros [E' | H']; auto.
           ++ intros [E' | H']; auto.
Qed.

Lemma new_Set_NoDup (values : list A) : NoDup (new_Set eq_dec values).
Proof.
  unfold new_Set. destruct (Set_fold values []) as (ext & -> & ND & _).
  exact ND.
Qed.

Lemma new_Set_In (values : list A) (v : A) :
  In v (new_Set eq_dec values) <-> In v values.
Proof.
  unfold new_Set. destruct (Set_fold values []) as (ext & -> & _ & H & _).
  simpl. rewrite H. tauto.
Qed.
End SetFacts.

(** C4.  [getUniqueValues(data, key)] has no duplicate, holds exactly the
    values of the field met in the input, and lists them in the order in
    which they are first met: when [u] stands before [v] in the result,
    the first occurrence of [u] in the input comes before any occurrence
    of [v]. *)
Theorem getUniqueValues_first_seen :
  forall (D V : Type) (eq_dec : forall x y : V, {x = y} + {x <> y})
         (data : list D) (key : D -> V),
    NoDup (getUniqueValues eq_dec data key)
    /\ (forall v, In v (getUniqueValues eq_dec data key)
                  <-> In v (map key data))
    /\ (forall u v, before u v (getUniqueValues eq_dec data key)
                    -> first_before u v (map key data)).
Proof.
  intros D V eq_dec data key. unfold getUniqueValues, new_Set.
  destruct (Set_fold eq_dec (map key data) []) as (ext & -> & ND & Hm & Ho).
  simpl. repeat split; auto.
  - intros H. apply Hm in H. tauto.
  - intros H. apply Hm. auto.
Qed.

(** ** The loader *)

(** C7.  Whatever [fetch] and [response.json()] settle with, the loader
    completes normally: with the parsed records and an untouched console
    when both succeed, with the empty array and the error logged when
    either fails. *)
Theorem loadEmissionData_fail_soft :
  forall (Response : Type) (fetch : string -> Completion Response)
         (json : Response -> Completion (list Datum.t))
         (host : string) (console : Console),
    (exists records,
        fst (loadEmissionData fetch json host console) = Normal records)
    /\ (forall response records,
           fetch (dataUrl host) = Normal response ->
           json response = Normal records ->
           loadEmissionData fetch json host console
           = (Normal records, console))
    /\ (forall error,
           fetch (dataUrl host) = Throw error ->
           loadEmissionData fetch json host console
           = (Normal [], console ++ [("Error loading data:", error)]))
    /\ (forall response error,
           fetch (dataUrl host) = Normal response ->
           json response = Throw error ->
           loadEmissionData fetch json host console
           = (Normal [], console ++ [("Error loading data:", error)])).
Proof.
  intros Response fetch json host console. unfold loadEmissionData.
  repeat split.
  - destruct (fetch (dataUrl host)) as [response|e]; simpl.
    + destruct (json response) as [records|e]; simpl; eauto.
    + eauto.
  - intros response records -> Hj. simpl. rewrite Hj. reflexivity.
  - intros error ->. reflexivity.
  - intros response error -> Hj. simpl. rewrite Hj. reflexivity.
Qed.

Lemma isLocalhost_not_pages (host : string) :
  isLocalhost host = true -> endsWith host "github.io" = false.
Proof.
  unfold isLocalhost. intros H.
  apply orb_true_iff in H. destruct H as [H | H].
  - apply orb_true_iff in H. destruct H as [H | H];
      apply String.eqb_eq in H; subst; reflexivity.
  - apply String.eqb_eq in H; subst; reflexivity.
Qed.

(** C8, as the code has it.  The remote URL is chosen exactly for the
    hostnames that end in [github.io]; every other hostname, the three
    local ones among them, gets the local relative path. *)
Theorem dataUrl_by_suffix :
  forall host : string,
    dataUrl host
    = (if endsWith host "github.io" then ghPagesPath else localPath)
    /\ (isLocalhost host = true -> dataUrl host = localPath).
Proof.
  intros host. unfold dataUrl.
  destruct (isLocalhost host) eqn:Hl.
  - rewrite (isLocalhost_not_pages host Hl). simpl. auto.
  - rewrite andb_true_r. split; [reflexivity | discriminate].
Qed.

(** C8, as the claim has it, fails: [example.com] is not a local host
    and is given the local path. *)
Lemma dataUrl_local_for_other_host :
  ~ (forall host : string,
        isLocalhost host = false -> dataUrl host = ghPagesPath).
Proof.
  intros H. specialize (H "example.com" eq_refl). discriminate H.
Qed.

Lemma dataUrl_by_suffix_local :
  isLocalhost "127.0.0.1" = true /\ dataUrl "127.0.0.1" = localPath.
Proof.
  split; [reflexivity|].
  apply (proj2 (dataUrl_by_suffix "127.0.0.1")). reflexivity.
Defined.

(** ** Grouping *)

Section GroupFacts.
Context {K V : Type}.
Variable eq_dec : forall x y : K, {x = y} + {x <> y}.
Variable key : V -> K.

Lemma Map_push_keys (groups : list (K * d3.Group)) (k : K) (v : V) :
  forall k', In k' (map fst (d3.Map_push eq_dec groups k v))
             <-> k' = k \/ In k' (map fst groups).
Proof.
  induction groups as [|[k0 g0] groups IH]; intros k'; simpl.
  - split; [intros [<- | []]; now left | intros [-> | []]; now left].
  - destruct (eq_dec k0 k) as [-> | Hne]; simpl.
    + split; [tauto | intros [-> | H]; tauto].
    + rewrite IH. tauto.
Qed.

Lemma Map_push_NoDup (groups : list (K * d3.Group)) (k : K) (v : V) :
  NoDup (map fst groups) ->
  NoDup (map fst (d3.Map_push eq_dec groups k v)).
Proof.
  induction groups as [|[k0 g0] groups IH]; simpl; intros ND.
  - constructor; [intros [] | constructor].
  - apply NoDup_cons_iff in ND. destruct ND as [Hnin ND].
    destruct (eq_dec k0 k) as [-> | Hne]; simpl.
    + constructor; assumption.
    + constructor; [|auto]. rewrite Map_push_keys.
      intros [-> | H]; [now apply Hne | contradiction].
Qed.

Lemma Map_push_In (groups : list (K * d3.Group)) (k : K) (v : V) :
  NoDup (map fst groups) ->
  forall k' g',
    In (k', g') (d3.Map_push eq_dec groups k v) ->
    (k' <> k /\ In (k', g') groups)
    \/ (k' = k
        /\ ((exists g, In (k, g) groups /\ g' = (fst g, snd g ++ [v]))
            \/ (~ In k (map fst groups) /\ g' = (v, [])))).
Proof.
  induction groups as [|[k0 g0] groups IH]; simpl; intros ND k' g' H.
  - destruct H as [H | []]. inv H. right. split; [reflexivity|].
    right. split; [tauto | reflexivity].
  - apply NoDup_cons_iff in ND. destruct ND as [Hnin ND].
    destruct (eq_dec k0 k) as [-> | Hne]; simpl in H.
    + destruct H as [H | H].
      * inv H. right. split; [reflexivity|]. left. exists g0.
        split; [now left | reflexivity].
      * left. split; [|now right]. intros ->. apply Hnin.
        apply (in_map fst) in H. exact H.
    + destruct H as [H | H].
      * inv H. left. split; [assumption | now left].
      * destruct (IH ND _ _ H)
          as [[Hk Hin] | [-> [(g & Hin & ->) | [Hn ->]]]].
        -- left. split; [assumption | now right].
        -- right. split; [reflexivity|]. left. exists g.
           split; [now right | reflexivity].
        -- right. split; [reflexivity|]. right.
           split; [|reflexivity]. intros [E | Hin]; auto.
Qed.

Lemma keyed_app (k : K) (l1 l2 : list V) :
  keyed eq_dec key k (l1 ++ l2)
  = keyed eq_dec key k l1 ++ keyed eq_dec key k l2.
Proof. unfold keyed. apply filter_app. Qed.

Lemma keyed_In (k : K) (l : list V) (v : V) :
  In v (keyed eq_dec key k l) <-> In v l /\ key v = k.
Proof.
  unfold keyed. rewrite filter_In.
  destruct (eq_dec (key v) k); split; intros [H1 H2]; split;
    try assumption; try reflexivity; try discriminate; contradiction.
Qed.

Lemma keyed_nil (k : K) (l : list V) :
  (forall v, In v l -> key v <> k) -> keyed eq_dec key k l = [].
Proof.
  intros H. destruct (keyed eq_dec key k l) as [|v l'] eqn:E;
    [reflexivity|].
  assert (Hin : In v (keyed eq_dec key k l)) by (rewrite E; now left).
  apply keyed_In in Hin. destruct Hin as [Hin Hk].
  exfalso. exact (H v Hin Hk).
Qed.

(** One turn of the loop keeps the grouping. *)
Lemma groups_of_push (groups : list (K * d3.Group)) (seen : list V)
    (v : V) :
  groups_of eq_dec key groups seen ->
  groups_of eq_dec key (d3.Map_push eq_dec groups (key v) v) (seen ++ [v]).
Proof.
  intros (ND & Hg & Hk). split; [|split].
  - apply Map_push_NoDup, ND.
  - intros k g H. rewrite keyed_app.
    destruct (Map_push_In groups (key v) v ND _ _ H)
      as [[Hne Hin] | [-> [(g0 & Hin & ->) | [Hn ->]]]].
    + rewrite <- (Hg _ _ Hin).
      rewrite (keyed_nil k [v]); [now rewrite app_nil_r|].
      intros v' [<- | []]. auto.
    + unfold d3.to_array. simpl.
      change (fst g0 :: snd g0 ++ [v]) with (d3.to_array g0 ++ [v]).
      rewrite (Hg _ _ Hin). f_equal. unfold keyed. simpl.
      destruct (eq_dec (key v) (key v)); [reflexivity | contradiction].
    + rewrite (keyed_nil (key v) seen).
      * unfold keyed. simpl.
        destruct (eq_dec (key v) (key v)); [reflexivity | contradiction].
      * intros v' Hin E. apply Hn. rewrite <- E. apply Hk, Hin.
  - intros v' H. rewrite Map_push_keys.
    apply in_app_or in H. destruct H as [H | [<- | []]]; auto.
Qed.

Variable keyof : V -> Completion K.

(** When no key throws, the loop ends with the grouping of all it has
    seen. *)
Lemma group_into_Normal (values : list V) :
  forall (groups : list (K * d3.Group)) (seen : list V),
    groups_of eq_dec key groups seen ->
    (forall v, In v values -> keyof v = Normal (key v)) ->
    exists groups',
      d3.group_into eq_dec keyof groups values = Normal groups'
      /\ groups_of eq_dec key groups' (seen ++ values).
Proof.
  induction values as [|v values IH]; intros groups seen Hg Hk; simpl.
  - exists groups. rewrite app_nil_r. auto.
  - rewrite (Hk v (or_introl eq_refl)). simpl.
    destruct (IH _ _ (groups_of_push _ _ v Hg)) as (groups' & E & Hg').
    + intros v' H. apply Hk. now right.
    + exists groups'. rewrite <- app_assoc in Hg'. auto.
Qed.

Lemma group_Normal (values : list V) :
  (forall v, In v values -> keyof v = Normal (key v)) ->
  exists groups,
    d3.group eq_dec keyof values = Normal groups
    /\ groups_of eq_dec key groups values.
Proof.
  intros Hk. apply (group_into_Normal values [] []); [|exact Hk].
  split; [constructor | split]; intros; contradiction.
Qed.

(** When a key throws, so does the loop. *)
Lemma group_into_Throw (e : Error) (values : list V) :
  forall groups : list (K * d3.Group),
    (forall v e', keyof v = Throw e' -> e' = e) ->
    (exists v, In v values /\ keyof v = Throw e) ->
    d3.group_into eq_dec keyof groups values = Throw e.
Proof.
  induction values as [|v values IH]; intros groups He (v' & Hin & Hv').
  - contradiction.
  - simpl. destruct (keyof v) as [k|e'] eqn:E; simpl.
    + apply IH; [exact He|]. destruct Hin as [-> | Hin].
      * rewrite E in Hv'. discriminate.
      * exists v'. auto.
    + f_equal. eapply He, E.
Qed.
End GroupFacts.

Lemma mapM_Normal {A B : Type} (f : A -> Completion B) (P : A -> B -> Prop)
    (l : list A) :
  (forall a, In a l -> exists b, f a = Normal b /\ P a b) ->
  exists bs, mapM f l = Normal bs /\ Forall2 P l bs.
Proof.
  induction l as [|a l IH]; intros H; simpl.
  - exists []. split; [reflexivity | constructor].
  - destruct (H a (or_introl eq_refl)) as (b & -> & Hb). simpl.
    destruct IH as (bs & -> & Hbs).
    + intros a' Ha'. apply H. now right.
    + exists (b :: bs). split; [reflexivity | now constructor].
Qed.

Lemma mapM_Throw {A B : Type} (f : A -> Completion B) (e : Error)
    (l : list A) :
  (forall a e', f a = Throw e' -> e' = e) ->
  (exists a, In a l /\ f a = Throw e) ->
  mapM f l = Throw e.
Proof.
  induction l as [|a l IH]; intros He (a' & Hin & Ha').
  - contradiction.
  - simpl. destruct (f a) as [b|e'] eqn:E; simpl.
    + rewrite IH; [reflexivity | exact He |].
      destruct Hin as [-> | Hin].
      * rewrite E in Ha'. discriminate.
      * exists a'. auto.
    + f_equal. eapply He, E.
Qed.

Lemma group_into_Throw_inv {K V : Type}
    (eq_dec : forall x y : K, {x = y} + {x <> y})
    (keyof : V -> Completion K) (e : Error) (values : list V) :
  forall groups : list (K * d3.Group),
    d3.group_into eq_dec keyof groups values = Throw e ->
    exists v, In v values /\ keyof v = Throw e.
Proof.
  induction values as [|v values IH]; intros groups H; simpl in H.
  - discriminate.
  - destruct (keyof v) as [k|e'] eqn:E; simpl in H.
    + destruct (IH _ H) as (v' & Hin & Hv'). exists v'. split; [now right|auto].
    + inv H. exists v. split; [now left | assumption].
Qed.

(** ** Filters and searches *)

Lemma filter_filter {A : Type} (f g : A -> bool) (l : list A) :
  filter f (filter g l) = filter (fun x => g x && f x) l.
Proof.
  induction l as [|a l IH]; simpl; [reflexivity|].
  destruct (g a); simpl; [destruct (f a)|]; rewrite IH; reflexivity.
Qed.

Lemma find_filter_head {A : Type} (f : A -> bool) (l : list A) :
  find f l = hd_error (filter f l).
Proof.
  induction l as [|a l IH]; simpl; [reflexivity|].
  destruct (f a); simpl; auto.
Qed.

Lemma find_ext_in {A : Type} (f g : A -> bool) (l : list A) :
  (forall x, In x l -> f x = g x) -> find f l = find g l.
Proof.
  induction l as [|a l IH]; intros H; simpl; [reflexivity|].
  rewrite (H a (or_introl eq_refl)). destruct (g a); [reflexivity|].
  apply IH. intros x Hx. apply H. now right.
Qed.

Lemma find_map {A B : Type} (f : B -> bool) (g : A -> B) (l : list A) :
  find f (map g l) = option_map g (find (fun x => f (g x)) l).
Proof.
  induction l as [|a l IH]; simpl; [reflexivity|].
  destruct (f (g a)); simpl; auto.
Qed.

Lemma find_filter {A : Type} (f g : A -> bool) (l : list A) :
  find f (filter g l) = find (fun x => g x && f x) l.
Proof.
  rewrite !find_filter_head, filter_filter. reflexivity.
Qed.

Lemma NoDup_map_Some {A : Type} (l : list A) :
  NoDup l -> NoDup (map Some l).
Proof.
  induction 1 as [|a l Hn ND IH]; simpl; constructor; [|exact IH].
  rewrite in_map_iff. intros (x & E & Hx). inv E. contradiction.
Qed.

(** ** Deduplication *)

Lemma getTime_Normal (p : Point.t) :
  Point.date p <> None ->
  getTime (Point.date p) = Normal (valueOf (Point.date p)).
Proof. destruct (Point.date p); [reflexivity | contradiction]. Qed.

Lemma getTime_Throw (date : option Z) (e : Error) :
  getTime date = Throw e -> e = TypeError /\ date = None.
Proof. destruct date; simpl; intros H; inv H. auto. Qed.

Lemma dated_same_pair (c : string) (p q : Point.t) :
  Point.country p = c ->
  Point.date p <> None -> Point.date q <> None ->
  same_pair p q
  = (if string_dec (Point.country q) c then true else false)
    && (if Z.eq_dec (valueOf (Point.date q)) (valueOf (Point.date p))
        then true else false).
Proof.
  intros <- Hp Hq. unfold same_pair, same_date.
  destruct (Point.date p) as [tp|]; [|contradiction].
  destruct (Point.date q) as [tq|]; [|contradiction].
  unfold valueOf. f_equal.
  - destruct (string_dec (Point.country q) (Point.country p)) as [E | N].
    + apply String.eqb_eq, E.
    + apply String.eqb_neq, N.
  - destruct (Z.eq_dec tq tp) as [E | N].
    + apply Z.eqb_eq, E.
    + apply Z.eqb_neq, N.
Qed.

Lemma same_pair_true (p q : Point.t) :
  same_pair p q = true <-> pair_of q = pair_of p.
Proof.
  unfold same_pair, same_date, pair_of. rewrite andb_true_iff, String.eqb_eq.
  destruct (Point.date q) as [tq|], (Point.date p) as [tp|];
    try rewrite Z.eqb_eq;
    (split; [intros [E1 E2]; congruence | intros H; split; congruence]).
Qed.

Lemma Forall2_In_r {A B : Type} (P : A -> B -> Prop) (l : list A)
    (l' : list B) (y : B) :
  Forall2 P l l' -> In y l' -> exists x, In x l /\ P x y.
Proof.
  induction 1 as [|a b l l' Hab H IH]; intros Hin; [contradiction|].
  destruct Hin as [<- | Hin].
  - exists a. split; [now left | assumption].
  - destruct (IH Hin) as (x & Hx & Hp). exists x. split; [now right | auto].
Qed.

Lemma Forall2_In_l {A B : Type} (P : A -> B -> Prop) (l : list A)
    (l' : list B) (x : A) :
  Forall2 P l l' -> In x l -> exists y, In y l' /\ P x y.
Proof.
  induction 1 as [|a b l l' Hab H IH]; intros Hin; [contradiction|].
  destruct Hin as [<- | Hin].
  - exists b. split; [now left | assumption].
  - destruct (IH Hin) as (y & Hy & Hp). exists y. split; [now right | auto].
Qed.

Lemma Forall2_map_fst {A B C : Type} (l : list (C * A)) (l' : list (C * B))
    (P : C * A -> C * B -> Prop) :
  (forall x y, P x y -> fst y = fst x) ->
  Forall2 P l l' -> map fst l' = map fst l.
Proof.
  intros HP. induction 1 as [|a b l l' Hab H IH]; simpl; [reflexivity|].
  rewrite IH, (HP _ _ Hab). reflexivity.
Qed.

Lemma dated (p : Point.t) :
  Point.date p <> None -> Point.date p = Some (time_of p).
Proof. unfold time_of. destruct (Point.date p); [reflexivity | contradiction]. Qed.

Lemma inner_series (filtered : list Point.t) (c : string)
    (arr : list Point.t) (inner : list (Z * d3.Group)) :
  (forall p, In p filtered -> Point.date p <> None) ->
  arr = keyed string_dec Point.country c filtered ->
  arr <> [] ->
  groups_of Z.eq_dec time_of inner arr ->
  map (fun kg2 : Z * d3.Group => fst (snd kg2)) inner <> []
  /\ NoDup (map Point.date (map (fun kg2 : Z * d3.Group => fst (snd kg2)) inner))
  /\ (forall p, In p (map (fun kg2 : Z * d3.Group => fst (snd kg2)) inner) ->
                Point.country p = c /\ find (same_pair p) filtered = Some p)
  /\ (forall q, In q arr ->
        exists p, In p (map (fun kg2 : Z * d3.Group => fst (snd kg2)) inner)
                  /\ Point.date p = Point.date q).
Proof.
  intros Hd Harr Hne (ND & Hg & Hk).
  assert (Hfirst : forall t g2, In (t, g2) inner ->
            In (fst g2) filtered /\ Point.country (fst g2) = c
            /\ time_of (fst g2) = t).
  { intros t g2 Hin. specialize (Hg _ _ Hin).
    assert (H : In (fst g2) (keyed Z.eq_dec time_of t arr))
      by (rewrite <- Hg; now left).
    apply keyed_In in H. destruct H as [H1 H2].
    rewrite Harr in H1. apply keyed_In in H1. tauto. }
  split; [|split; [|split]].
  - destruct arr as [|v arr']; [contradiction|].
    specialize (Hk v (or_introl eq_refl)).
    destruct inner; [contradiction | discriminate].
  - rewrite map_map.
    rewrite (map_ext_in _ (fun kg2 : Z * d3.Group => Some (fst kg2))).
    + rewrite <- (map_map fst Some). apply NoDup_map_Some, ND.
    + intros [t g2] Hin. simpl.
      destruct (Hfirst _ _ Hin) as (Hf & _ & <-). apply dated, Hd, Hf.
  - intros p Hp. apply in_map_iff in Hp. destruct Hp as ([t g2] & <- & Hin).
    simpl. destruct (Hfirst _ _ Hin) as (Hf & Hc & Ht). split; [exact Hc|].
    rewrite (find_ext_in _
               (fun q => (if string_dec (Point.country q) c then true else false)
                         && (if Z.eq_dec (time_of q) t then true else false))).
    + rewrite find_filter_head.
      rewrite <- (filter_filter
                    (fun q => if Z.eq_dec (time_of q) t then true else false)
                    (fun q => if string_dec (Point.country q) c
                              then true else false)).
      change (hd_error
                (keyed Z.eq_dec time_of t
                   (keyed string_dec Point.country c filtered))
              = Some (fst g2)).
      rewrite <- Harr, <- (Hg _ _ Hin). reflexivity.
    + intros q Hq. rewrite (dated_same_pair c); auto.
      subst t. reflexivity.
  - intros q Hq. specialize (Hk q Hq). apply in_map_iff in Hk.
    destruct Hk as ([t g2] & Et & Hin). simpl in Et.
    exists (fst g2). split.
    + apply in_map_iff. exists (t, g2). auto.
    + destruct (Hfirst _ _ Hin) as (Hf & _ & Ht).
      rewrite (dated _ (Hd _ Hf)), Ht, Et. symmetry. apply dated, Hd.
      rewrite Harr in Hq. apply keyed_In in Hq. tauto.
Qed.

Lemma filteredUnique_Normal (filtered : list Point.t) :
  (forall p, In p filtered -> Point.date p <> None) ->
  exists unique,
    filteredUnique filtered = Normal unique /\ deduplicated filtered unique.
Proof.
  intros Hd. unfold filteredUnique, d3.rollup.
  destruct (group_Normal string_dec Point.country
              (fun d => Normal (Point.country d)) filtered)
    as (outer & -> & NDo & Hgo & Hko); [reflexivity|]. simpl.
  set (f := fun kg : string * d3.Group => _).
  destruct (mapM_Normal f
              (fun kg out =>
                 fst out = fst kg
                 /\ exists inner,
                     groups_of Z.eq_dec time_of inner (d3.to_array (snd kg))
                     /\ snd out
                        = map (fun kg2 : Z * d3.Group =>
                                 (fst kg2, fst (snd kg2))) inner)
              outer) as (bs & -> & Hbs).
  { intros [c g] Hin. unfold f. simpl.
    destruct (group_Normal Z.eq_dec time_of
                (fun d => getTime (Point.date d)) (d3.to_array g))
      as (inner & -> & Hinner).
    - intros v Hv. apply getTime_Normal, Hd.
      rewrite (Hgo _ _ Hin) in Hv. apply keyed_In in Hv. tauto.
    - simpl. eexists. split; [reflexivity|]. simpl. split; [reflexivity|].
      exists inner. split; [exact Hinner | reflexivity]. }
  simpl. eexists. split; [reflexivity|].
  assert (Hser : forall c pts,
            In (c, pts)
               (map (fun cm : string * list (Z * Point.t) =>
                       (fst cm, map snd (snd cm))) bs) ->
            exists g inner,
              In (c, g) outer
              /\ groups_of Z.eq_dec time_of inner (d3.to_array g)
              /\ pts = map (fun kg2 : Z * d3.Group => fst (snd kg2)) inner).
  { intros c pts Hin. apply in_map_iff in Hin.
    destruct Hin as ([c' m] & E & Hin). simpl in E. inv E.
    destruct (Forall2_In_r _ _ _ _ Hbs Hin) as ([c0 g] & Hin0 & Ec & inner & Hi & Em).
    simpl in Ec, Hi, Em. subst c0 m. exists g, inner.
    rewrite map_map. simpl. auto. }
  split; [|split].
  - rewrite map_map. simpl.
    change (map (fun x : string * list (Z * Point.t) => fst x) bs)
      with (map fst bs).
    rewrite (Forall2_map_fst _ _ _ (fun x y H => proj1 H) Hbs). exact NDo.
  - intros c pts Hin.
    destruct (Hser _ _ Hin) as (g & inner & Hg & Hi & ->).
    destruct (inner_series filtered c (d3.to_array g) inner Hd (Hgo _ _ Hg))
      as (H1 & H2 & H3 & _); [discriminate | exact Hi | auto].
  - intros q Hq. specialize (Hko q Hq). apply in_map_iff in Hko.
    destruct Hko as ([c g] & Ec & Hg). simpl in Ec. subst c.
    destruct (Forall2_In_l _ _ _ _ Hbs Hg) as ([c m] & Hm & Ec & inner & Hi & Em).
    simpl in Ec, Hi, Em. subst c m.
    destruct (inner_series filtered (Point.country q) (d3.to_array g) inner
                Hd (Hgo _ _ Hg)) as (_ & _ & _ & H4);
      [discriminate | exact Hi |].
    destruct (H4 q) as (p & Hp & Ed).
    { rewrite (Hgo _ _ Hg). apply keyed_In. auto. }
    exists (map (fun kg2 : Z * d3.Group => fst (snd kg2)) inner), p.
    split; [|auto]. apply in_map_iff.
    exists (Point.country q,
            map (fun kg2 : Z * d3.Group => (fst kg2, fst (snd kg2))) inner).
    simpl. rewrite map_map. simpl. auto.
Qed.

Lemma filteredUnique_Throw (filtered : list Point.t) :
  (exists p, In p filtered /\ Point.date p = None) ->
  filteredUnique filtered = Throw TypeError.
Proof.
  intros (p & Hp & Hn). unfold filteredUnique, d3.rollup.
  destruct (group_Normal string_dec Point.country
              (fun d => Normal (Point.country d)) filtered)
    as (outer & -> & NDo & Hgo & Hko); [reflexivity|]. simpl.
  rewrite (mapM_Throw _ TypeError); [reflexivity | |].
  - intros [c g] e'. simpl.
    destruct (d3.group Z.eq_dec _ (d3.to_array g)) as [inner|e] eqn:E;
      simpl; [discriminate|]. intros H. inv H.
    apply group_into_Throw_inv in E. destruct E as (v & _ & Hv).
    apply getTime_Throw in Hv. tauto.
  - specialize (Hko p Hp). apply in_map_iff in Hko.
    destruct Hko as ([c g] & Ec & Hg). simpl in Ec. subst c.
    exists (Point.country p, g). split; [exact Hg|]. simpl.
    unfold d3.group. rewrite (group_into_Throw Z.eq_dec _ TypeError);
      [reflexivity | |].
    + intros v e' Hv. apply getTime_Throw in Hv. tauto.
    + exists p. split.
      * rewrite (Hgo _ _ Hg). apply keyed_In. auto.
      * rewrite Hn. reflexivity.
Qed.

(** ** Sorting *)

Section SortFacts.
Context {A : Type}.
Variable comparefn : A -> A -> Z.

Lemma insert_Permutation (x : A) (l : list A) :
  Permutation (insert comparefn x l) (x :: l).
Proof.
  induction l as [|y l IH]; simpl; [reflexivity|].
  destruct (comparefn x y <=? 0)%Z; [reflexivity|].
  rewrite IH. apply perm_swap.
Qed.

Lemma sort_Permutation (l : list A) : Permutation (sort comparefn l) l.
Proof.
  induction l as [|x l IH]; simpl; [reflexivity|].
  rewrite insert_Permutation, IH. reflexivity.
Qed.

Lemma sort_In (l : list A) (x : A) : In x (sort comparefn l) <-> In x l.
Proof.
  split; apply Permutation_in;
    [|symmetry]; apply sort_Permutation.
Qed.
End SortFacts.

Lemma insert_byDate_sorted (x : Point.t) (l : list Point.t) :
  StronglySorted (fun a b => (time_of a <= time_of b)%Z) l ->
  StronglySorted (fun a b => (time_of a <= time_of b)%Z) (insert byDate x l).
Proof.
  induction 1 as [|y l Hs IH Hy]; simpl.
  - constructor; constructor.
  - unfold byDate at 1. fold (time_of x) (time_of y).
    destruct (time_of x - time_of y <=? 0)%Z eqn:E.
    + apply Z.leb_le in E. constructor; [constructor; assumption|].
      constructor; [lia|]. eapply Forall_impl; [|exact Hy].
      simpl. intros a Ha. lia.
    + apply Z.leb_gt in E. constructor; [exact IH|].
      eapply Permutation_Forall; [symmetry; apply insert_Permutation|].
      constructor; [lia | exact Hy].
Qed.

Lemma sort_byDate_sorted (l : list Point.t) :
  StronglySorted (fun a b => (time_of a <= time_of b)%Z) (sort byDate l).
Proof.
  induction l as [|x l IH]; simpl; [constructor|].
  apply insert_byDate_sorted, IH.
Qed.

Lemma StronglySorted_impl_in {A : Type} (R S : A -> A -> Prop) (l : list A) :
  (forall a b, In a l -> In b l -> R a b -> S a b) ->
  StronglySorted R l -> StronglySorted S l.
Proof.
  intros H. induction 1 as [|a l Hs IH Ha]; constructor.
  - apply IH. intros x y Hx Hy. apply H; now right.
  - rewrite Forall_forall in *. intros x Hx. apply H; [now left | now right|].
    apply Ha, Hx.
Qed.

Lemma sort_byDate_no_later (l : list Point.t) :
  (forall p, In p l -> Point.date p <> None) ->
  StronglySorted no_later (sort byDate l).
Proof.
  intros Hd. eapply StronglySorted_impl_in; [|apply sort_byDate_sorted].
  intros a b Ha Hb. apply sort_In in Ha, Hb. unfold no_later, time_of.
  destruct (Point.date a) eqn:Ea; [|exfalso; apply (Hd a Ha Ea)].
  destruct (Point.date b) eqn:Eb; [|exfalso; apply (Hd b Hb Eb)].
  simpl. auto.
Qed.

(** ** The filter *)

Section FilterFacts.
Context {host : Host}.
Variable emissionData : list Datum.t.
Variables (selectedCountries : list string) (selectedGas selectedIndustry : string).

Lemma selected_true (r : Datum.t) :
  selected selectedCountries selectedGas selectedIndustry r = true
  <-> In (Datum.Country r) selectedCountries
      /\ Datum.Gas_Type r = selectedGas
      /\ Datum.Industry r = selectedIndustry
      /\ Datum.Seasonal_Adjustment r = "Seasonally Adjusted".
Proof.
  unfold selected.
  rewrite !andb_true_iff, includes_true, !String.eqb_eq. tauto.
Qed.

Lemma filtered_In (p : Point.t) :
  In p (filtered emissionData selectedCountries selectedGas selectedIndustry)
  <-> exists r, In r emissionData
                /\ selected selectedCountries selectedGas selectedIndustry r
                   = true
                /\ p = point r.
Proof.
  unfold filtered. rewrite in_map_iff. split.
  - intros (r & <- & Hr). apply filter_In in Hr. exists r. tauto.
  - intros (r & Hr & Hs & ->). exists r. rewrite filter_In. auto.
Qed.

(** What [series] returns, from what [filteredUnique] does. *)
Lemma series_Normal (out : list (string * list Point.t)) :
  series emissionData selectedCountries selectedGas selectedIndustry
  = Normal out ->
  exists unique,
    filteredUnique
      (filtered emissionData selectedCountries selectedGas selectedIndustry)
    = Normal unique
    /\ deduplicated
         (filtered emissionData selectedCountries selectedGas
            selectedIndustry) unique
    /\ (forall p,
          In p (filtered emissionData selectedCountries selectedGas
                  selectedIndustry) -> Point.date p <> None)
    /\ out = map (fun cv : string * list Point.t =>
                    (fst cv, sort byDate (snd cv))) unique.
Proof.
  unfold series. intros H.
  set (fl := filtered emissionData selectedCountries selectedGas
               selectedIndustry) in *.
  assert (Hd : forall p, In p fl -> Point.date p <> None).
  { intros p Hp Hn. rewrite filteredUnique_Throw in H; [discriminate|].
    exists p. auto. }
  destruct (filteredUnique_Normal fl Hd) as (unique & E & Hu).
  rewrite E in H. simpl in H. inv H. exists unique. auto.
Qed.
End FilterFacts.

Lemma filter_selected_adjusted (sc : list string) (gas ind : string)
    (data : list Datum.t) :
  filter (selected sc gas ind)
    (filter (fun r => String.eqb (Datum.Seasonal_Adjustment r)
                        "Seasonally Adjusted") data)
  = filter (selected sc gas ind) data.
Proof.
  rewrite filter_filter. apply filter_ext. intros r. unfold selected.
  destruct (String.eqb (Datum.Seasonal_Adjustment r) "Seasonally Adjusted");
    [reflexivity | rewrite andb_false_r; reflexivity].
Qed.

(** C1.  Every point of every series comes from a record of the data
    whose country is one of the selected countries (and the one of its
    series), whose gas type and industry are the selected ones and whose
    adjustment is "Seasonally Adjusted"; and the result is the same for
    any data with the same seasonally adjusted records, so that no other
    record shows in it. *)
Theorem series_from_selected_records :
  forall (host : Host) (emissionData : list Datum.t)
         (selectedCountries : list string)
         (selectedGas selectedIndustry : string)
         (out : list (string * list Point.t)),
    series emissionData selectedCountries selectedGas selectedIndustry
    = Normal out ->
    (forall c pts p,
        In (c, pts) out -> In p pts ->
        exists r,
          In r emissionData /\ p = point r
          /\ Datum.Country r = c
          /\ In (Datum.Country r) selectedCountries
          /\ Datum.Gas_Type r = selectedGas
          /\ Datum.Industry r = selectedIndustry
          /\ Datum.Seasonal_Adjustment r = "Seasonally Adjusted")
    /\ (forall data' : list Datum.t,
           filter (fun r => String.eqb (Datum.Seasonal_Adjustment r)
                              "Seasonally Adjusted") data'
           = filter (fun r => String.eqb (Datum.Seasonal_Adjustment r)
                                "Seasonally Adjusted") emissionData ->
           series data' selectedCountries selectedGas selectedIndustry
           = Normal out).
Proof.
  intros host data sc gas ind out H. split.
  - destruct (series_Normal _ _ _ _ _ H) as (unique & _ & (_ & Hs & _) & _ & ->).
    intros c pts p Hin Hp. apply in_map_iff in Hin.
    destruct Hin as ([c' pts'] & E & Hin). simpl in E. inv E.
    apply sort_In in Hp. destruct (Hs _ _ Hin) as (_ & _ & Hf).
    destruct (Hf p Hp) as (Hc & Hfind). apply find_some in Hfind.
    destruct Hfind as [Hfl _]. apply filtered_In in Hfl.
    destruct Hfl as (r & Hr & Hsel & ->). apply selected_true in Hsel.
    exists r. simpl in Hc. tauto.
  - intros data' E. rewrite <- H. unfold series, filtered.
    rewrite <- (filter_selected_adjusted sc gas ind data'), E,
      filter_selected_adjusted. reflexivity.
Qed.

Lemma NoDup_pairs (unique : list (string * list Point.t)) :
  NoDup (map fst unique) ->
  (forall c pts, In (c, pts) unique ->
     NoDup (map Point.date pts)
     /\ forall p, In p pts -> Point.country p = c) ->
  NoDup (map pair_of (flat_map snd unique)).
Proof.
  induction unique as [|[c pts] unique IH]; simpl; intros ND H;
    [constructor|].
  apply NoDup_cons_iff in ND. destruct ND as [Hc ND].
  rewrite map_app. apply NoDup_app.
  - destruct (H c pts (or_introl eq_refl)) as [Hd Hp].
    rewrite (map_ext_in pair_of (fun p => (c, Point.date p))).
    + rewrite <- (map_map Point.date (pair c)).
      clear - Hd. induction Hd as [|t l Hn Hd IH]; simpl; constructor; auto.
      rewrite in_map_iff. intros (t' & E & Ht'). inv E. contradiction.
    + intros p Hin. unfold pair_of. rewrite (Hp p Hin). reflexivity.
  - apply IH; [exact ND|]. intros c' pts' Hin. apply H. now right.
  - intros [c' t] H1 H2. apply in_map_iff in H1, H2.
    destruct H1 as (p1 & E1 & Hp1). destruct H2 as (p2 & E2 & Hp2).
    apply in_flat_map in Hp2. destruct Hp2 as ([c2 pts2] & Hin2 & Hp2).
    simpl in Hp2. apply Hc.
    destruct (H c pts (or_introl eq_refl)) as [_ Ha].
    destruct (H c2 pts2 (or_intror Hin2)) as [_ Hb].
    unfold pair_of in E1, E2.
    assert (Ec : c = c2).
    { rewrite <- (Ha _ Hp1), <- (Hb _ Hp2). congruence. }
    rewrite Ec. apply (in_map fst) in Hin2. exact Hin2.
Qed.

(** C2.  The series hold one point at most for a (country, date) pair:
    the countries of the series differ, and so do the pairs of all the
    points; and each point kept is the point of the first record of the
    data, in the order of the input, that passes the filter and has this
    country and this parsed date. *)
Theorem series_deduplicated_first_wins :
  forall (host : Host) (emissionData : list Datum.t)
         (selectedCountries : list string)
         (selectedGas selectedIndustry : string)
         (out : list (string * list Point.t)),
    series emissionData selectedCountries selectedGas selectedIndustry
    = Normal out ->
    NoDup (map fst out)
    /\ NoDup (map pair_of (flat_map snd out))
    /\ (forall c pts p,
          In (c, pts) out -> In p pts ->
          Point.country p = c
          /\ exists r,
               find (fun r =>
                       selected selectedCountries selectedGas
                         selectedIndustry r
                       && same_pair p (point r)) emissionData = Some r
               /\ p = point r).
Proof.
  intros host data sc gas ind out H.
  destruct (series_Normal _ _ _ _ _ H) as (unique & _ & (ND & Hs & _) & _ & ->).
  assert (Hin : forall c pts,
             In (c, pts)
                (map (fun cv : string * list Point.t =>
                        (fst cv, sort byDate (snd cv))) unique) ->
             exists pts0, In (c, pts0) unique /\ pts = sort byDate pts0).
  { intros c pts Hin. apply in_map_iff in Hin.
    destruct Hin as ([c' pts0] & E & Hin). simpl in E. inv E. eauto. }
  split; [|split].
  - rewrite map_map. exact ND.
  - apply NoDup_pairs; [rewrite map_map; exact ND|].
    intros c pts Hc. destruct (Hin _ _ Hc) as (pts0 & H0 & ->).
    destruct (Hs _ _ H0) as (_ & Hd & Hf). split.
    + eapply Permutation_NoDup; [|exact Hd].
      apply Permutation_map. symmetry. apply sort_Permutation.
    + intros p Hp. apply sort_In in Hp. apply Hf, Hp.
  - intros c pts p Hc Hp. destruct (Hin _ _ Hc) as (pts0 & H0 & ->).
    apply sort_In in Hp. destruct (Hs _ _ H0) as (_ & _ & Hf).
    destruct (Hf p Hp) as (Ec & Hfind). split; [exact Ec|].
    unfold filtered in Hfind. rewrite find_map, find_filter in Hfind.
    destruct (find _ data) as [r|] eqn:E; [|discriminate].
    simpl in Hfind. inv Hfind. exists r. auto.
Qed.

(** ** The drawing *)

Lemma colors_length (ds : list string) :
  forall scale : d3.Ordinal, List.length (fst (colors scale ds)) = List.length ds.
Proof.
  induction ds as [|d0 ds IH]; intros scale; simpl; [reflexivity|].
  rewrite IH. reflexivity.
Qed.

Lemma map_snd_combine {A B : Type} (l : list A) :
  forall l' : list B,
    List.length l = List.length l' -> map snd (combine l l') = l'.
Proof.
  induction l as [|a l IH]; intros [|b l'] H; simpl in *;
    try reflexivity; try discriminate.
  rewrite IH; [reflexivity | lia].
Qed.

Section DrawingFacts.
Context {host : Host}.
Variable emissionData : list Datum.t.

Lemma updateLegend_chartGroup (selectedCountries : list string)
    (pg : Page) :
  chartGroup (updateLegend selectedCountries pg) = chartGroup pg.
Proof. reflexivity. Qed.

Lemma updateVisualization_Throw (pg : Page) (e : Error) :
  filteredUnique
    (filtered emissionData (checked pg) (gas_select pg)
       (industry_select pg)) = Throw e ->
  updateVisualization emissionData pg
  = (Throw e, updateLegend (checked pg) pg).
Proof.
  intros H. unfold updateVisualization. simpl. rewrite H. reflexivity.
Qed.

Lemma updateVisualization_Normal (pg : Page)
    (unique : list (string * list Point.t)) :
  filteredUnique
    (filtered emissionData (checked pg) (gas_select pg)
       (industry_select pg)) = Normal unique ->
  fst (updateVisualization emissionData pg) = Normal tt
  /\ legend (snd (updateVisualization emissionData pg))
     = legend (updateLegend (checked pg) pg)
  /\ (unique = [] ->
      chartGroup (snd (updateVisualization emissionData pg)) = [])
  /\ (unique <> [] ->
      horizontal (chartGroup (snd (updateVisualization emissionData pg)))
      = Some (d3.extent (flat_map snd unique) Point.date)
      /\ vertical (chartGroup (snd (updateVisualization emissionData pg)))
         = Some (nice (Finite (Q2Qc 0), top (flat_map snd unique))))
  /\ map (fun path => (title path, d path))
         (lines (chartGroup (snd (updateVisualization emissionData pg))))
     = map (fun cv : string * list Point.t =>
              (fst cv, sort byDate (snd cv))) unique.
Proof.
  intros H. unfold updateVisualization. simpl. rewrite H.
  destruct unique as [|s unique].
  - simpl. split; [reflexivity|]. split; [reflexivity|].
    split; [reflexivity|].
    split; [intros N; contradiction | reflexivity].
  - cbv beta iota. change (List.length (s :: unique) =? 0) with false.
    cbv iota. split; [reflexivity|]. split; [reflexivity|].
    split; [discriminate|]. split; [intros _; split; reflexivity|].
    cbn [snd chartGroup lines]. rewrite map_map. cbn [title d].
    rewrite <- (map_map snd
                  (fun cv : string * list Point.t =>
                     (fst cv, sort byDate (snd cv)))).
    rewrite map_snd_combine; [reflexivity|].
    rewrite colors_length, length_map. reflexivity.
Qed.
End DrawingFacts.

(** The arrays drawn, against the arrays of the deduplicated result
    that they are the sorting of. *)
Lemma lines_of_unique (paths : list Path) :
  forall unique : list (string * list Point.t),
    map (fun path => (title path, d path)) paths
    = map (fun cv : string * list Point.t =>
             (fst cv, sort byDate (snd cv))) unique ->
    (forall cv p, In cv unique -> In p (snd cv) -> Point.date p <> None) ->
    Forall2 (fun path cv =>
               title path = fst cv
               /\ Permutation (d path) (snd cv)
               /\ StronglySorted no_later (d path))
            paths unique.
Proof.
  induction paths as [|path paths IH]; intros [|cv unique] H Hd;
    simpl in H; try discriminate.
  - constructor.
  - injection H as Ht Hp Hrest. constructor.
    + split; [exact Ht|]. rewrite Hp. split; [apply sort_Permutation|].
      apply sort_byDate_no_later. intros p Hin.
      apply (Hd cv p); [now left | exact Hin].
    + apply IH; [exact Hrest|]. intros cv' p Hcv'. apply Hd. now right.
Qed.

(** C3, as the code has it.  When the drawing completes, there is one
    line for each series of the deduplicated result, in the same order;
    the points handed to the line generator for a country are the points
    of its series, none lost and none added, in ascending order of date:
    every point is dated and no later than the points after it.  The
    sort is the one of line 195, inside the drawing: the series of the
    deduplicated result itself are as lines 137-145 leave them. *)
Theorem lines_sorted_by_date :
  forall (host : Host) (emissionData : list Datum.t) (pg : Page),
    fst (updateVisualization emissionData pg) = Normal tt ->
    exists unique,
      filteredUnique
        (filtered emissionData (checked pg) (gas_select pg)
           (industry_select pg)) = Normal unique
      /\ Forall2 (fun path cv =>
                    title path = fst cv
                    /\ Permutation (d path) (snd cv)
                    /\ StronglySorted no_later (d path))
           (lines (chartGroup (snd (updateVisualization emissionData pg))))
           unique
      /\ series emissionData (checked pg) (gas_select pg) (industry_select pg)
         = Normal
             (map (fun path => (title path, d path))
                (lines (chartGroup
                          (snd (updateVisualization emissionData pg))))).
Proof.
  intros host data pg H.
  destruct (filteredUnique
              (filtered data (checked pg) (gas_select pg) (industry_select pg)))
    as [unique|e] eqn:E.
  - destruct (updateVisualization_Normal data pg unique E)
      as (_ & _ & _ & _ & Hl).
    exists unique. split; [reflexivity|].
    assert (Hs : series data (checked pg) (gas_select pg) (industry_select pg)
                 = Normal (map (fun cv : string * list Point.t =>
                                  (fst cv, sort byDate (snd cv))) unique)).
    { unfold series. rewrite E. reflexivity. }
    split; [|rewrite Hl; exact Hs].
    apply lines_of_unique; [exact Hl|].
    destruct (series_Normal _ _ _ _ _ Hs)
      as (unique' & E' & (_ & Hd & _) & Hdate & _).
    rewrite E in E'. inv E'.
    intros [c pts] p Hin Hp. simpl in Hp.
    destruct (Hd _ _ Hin) as (_ & _ & Hf). destruct (Hf p Hp) as [_ Hfind].
    apply find_some in Hfind. apply Hdate. tauto.
  - rewrite (updateVisualization_Throw data pg e E) in H. discriminate.
Qed.

(** C6.  When the deduplicated result is empty, the drawing completes
    normally and leaves the chart group empty: the former content is
    removed and nothing is appended; and the result is empty when no
    record passes the filter. *)
Theorem empty_result_clears_chart :
  forall (host : Host) (emissionData : list Datum.t) (pg : Page),
    filteredUnique
      (filtered emissionData (checked pg) (gas_select pg)
         (industry_select pg)) = Normal [] ->
    fst (updateVisualization emissionData pg) = Normal tt
    /\ chartGroup (snd (updateVisualization emissionData pg)) = []
    /\ filter (selected (checked pg) (gas_select pg) (industry_select pg))
              emissionData = [].
Proof.
  intros host data pg H.
  destruct (updateVisualization_Normal data pg [] H) as (H1 & _ & H2 & _).
  split; [exact H1 | split; [exact (H2 eq_refl)|]].
  destruct (filter _ data) as [|r l] eqn:E; [reflexivity|]. exfalso.
  assert (Hs : series data (checked pg) (gas_select pg) (industry_select pg)
               = Normal []).
  { unfold series. rewrite H. reflexivity. }
  destruct (series_Normal _ _ _ _ _ Hs) as (unique & E' & (_ & _ & Hc) & _ & _).
  rewrite H in E'. inv E'.
  destruct (Hc (point r)) as (pts & p & [] & _).
  unfold filtered. rewrite E. now left.
Qed.

(** C10.  A record that passes the filter and whose date the parser
    refuses makes the drawing throw a [TypeError]: the record is not
    skipped, and the chart is left as it was. *)
Theorem unparseable_date_throws :
  forall (host : Host) (emissionData : list Datum.t) (pg : Page)
         (r : Datum.t),
    In r emissionData ->
    selected (checked pg) (gas_select pg) (industry_select pg) r = true ->
    parseDate (Datum.date r) = None ->
    fst (updateVisualization emissionData pg) = Throw TypeError
    /\ chartGroup (snd (updateVisualization emissionData pg))
       = chartGroup pg.
Proof.
  intros host data pg r Hr Hs Hd.
  rewrite (updateVisualization_Throw data pg TypeError).
  - split; reflexivity.
  - apply filteredUnique_Throw. exists (point r). split; [|exact Hd].
    apply filtered_In. exists r. auto.
Qed.

(** ** Numbers *)

Lemma lt_irrefl (a : number) : JS.lt a a = false.
Proof.
  destruct a as [| |q|]; simpl; try reflexivity.
  rewrite (proj1 (Qceq_alt q q) eq_refl). reflexivity.
Qed.

Lemma lt_NaN_r (a : number) : JS.lt a NaN = false.
Proof. destruct a; reflexivity. Qed.

Lemma lt_trans (a b c : number) :
  JS.lt a b = true -> JS.lt b c = true -> JS.lt a c = true.
Proof.
  destruct a as [| |x|], b as [| |y|], c as [| |z|]; simpl;
    try discriminate; try reflexivity.
  destruct (x ?= y)%Qc eqn:E1; try discriminate.
  destruct (y ?= z)%Qc eqn:E2; try discriminate. intros _ _.
  apply Qclt_alt in E1, E2.
  rewrite (proj1 (Qclt_alt x z) (Qclt_trans _ _ _ E1 E2)). reflexivity.
Qed.

Lemma ge_refl (a : number) : JS.ge a a = true <-> a <> NaN.
Proof.
  destruct a as [| |q|]; simpl; try rewrite lt_irrefl; simpl;
    split; intros H; try reflexivity; try discriminate; try congruence.
  - rewrite (proj1 (Qceq_alt q q) eq_refl). reflexivity.
Qed.

(** ** The domains *)

Section ExtentFacts.
Context {A : Type}.
Variable valueof : A -> option Z.

Lemma extent_fold (values : list A) :
  forall (mm : option Z * option Z) (seen : list A),
    extent_of valueof mm seen ->
    extent_of valueof
      (fold_left
         (fun (mm : option Z * option Z) (d : A) =>
            match valueof d with
            | None => mm
            | Some value =>
                match mm with
                | (None, _) => (Some value, Some value)
                | (Some min, max) =>
                    (Some (if (min >? value)%Z then value else min),
                     match max with
                     | Some mx =>
                         Some (if (mx <? value)%Z then value else mx)
                     | None => None
                     end)
                end
            end)
         values mm)
      (seen ++ values).
Proof.
  induction values as [|d values IH]; intros mm seen H; simpl.
  - rewrite app_nil_r. exact H.
  - replace (seen ++ d :: values) with ((seen ++ [d]) ++ values)
      by (rewrite <- app_assoc; reflexivity).
    apply IH. destruct (valueof d) as [value|] eqn:E.
    + destruct mm as [[lo|] [hi|]]; simpl in H; try contradiction.
      * destruct H as ((vl & Hvl & El) & (vh & Hvh & Eh) & Hb).
        assert (Hlo := Hb _ _ Hvl El). simpl.
        split; [|split].
        -- destruct (lo >? value)%Z eqn:C.
           ++ exists d. split; [apply in_or_app; right; now left | exact E].
           ++ exists vl. split; [apply in_or_app; now left | exact El].
        -- destruct (hi <? value)%Z eqn:C.
           ++ exists d. split; [apply in_or_app; right; now left | exact E].
           ++ exists vh. split; [apply in_or_app; now left | exact Eh].
        -- intros v t Hv Et. apply in_app_or in Hv.
           destruct Hv as [Hv | [<- | []]].
           ++ specialize (Hb _ _ Hv Et).
              destruct (lo >? value)%Z eqn:C1; destruct (hi <? value)%Z eqn:C2;
                lia.
           ++ rewrite E in Et. inv Et.
              destruct (lo >? t)%Z eqn:C1; destruct (hi <? t)%Z eqn:C2; lia.
      * simpl. split; [|split].
        -- exists d. split; [apply in_or_app; right; now left | exact E].
        -- exists d. split; [apply in_or_app; right; now left | exact E].
        -- intros v t Hv Et. apply in_app_or in Hv.
           destruct Hv as [Hv | [<- | []]].
           ++ rewrite (H v Hv) in Et. discriminate.
           ++ rewrite E in Et. inv Et. lia.
    + destruct mm as [[lo|] [hi|]]; simpl in H |- *; try contradiction.
      * destruct H as ((vl & Hvl & El) & (vh & Hvh & Eh) & Hb).
        split; [|split].
        -- exists vl. split; [apply in_or_app; now left | exact El].
        -- exists vh. split; [apply in_or_app; now left | exact Eh].
        -- intros v t Hv Et. apply in_app_or in Hv.
           destruct Hv as [Hv | [<- | []]]; [eauto|].
           rewrite E in Et. discriminate.
      * intros v Hv. apply in_app_or in Hv.
        destruct Hv as [Hv | [<- | []]]; auto.
Qed.

Lemma extent_spec (values : list A) :
  extent_of valueof (d3.extent values valueof) values.
Proof.
  apply (extent_fold values (None, None) []). simpl. intros v [].
Qed.
End ExtentFacts.

Section MaxFacts.
Context {A : Type}.
Variable valueof : A -> number.

Lemma max_fold (values : list A) :
  forall (max : option number) (seen : list A),
    max_of valueof max seen ->
    max_of valueof
      (fold_left
         (fun (max : option number) (d : A) =>
            let value := valueof d in
            if match max with
               | Some m => JS.lt m value
               | None => JS.ge value value
               end
            then Some value else max)
         values max)
      (seen ++ values).
Proof.
  induction values as [|d values IH]; intros max seen H; simpl.
  - rewrite app_nil_r. exact H.
  - replace (seen ++ d :: values) with ((seen ++ [d]) ++ values)
      by (rewrite <- app_assoc; reflexivity).
    apply IH. destruct max as [m|]; simpl in H |- *.
    + destruct H as (Hn & (vm & Hvm & Em) & Hb).
      destruct (JS.lt m (valueof d)) eqn:C; simpl.
      * split; [|split].
        -- intros N. rewrite N, lt_NaN_r in C. discriminate.
        -- exists d. split; [apply in_or_app; right; now left | reflexivity].
        -- intros v Hv. apply in_app_or in Hv.
           destruct Hv as [Hv | [<- | []]]; [|apply lt_irrefl].
           destruct (JS.lt (valueof d) (valueof v)) eqn:C'; [|reflexivity].
           rewrite <- (Hb v Hv). symmetry. exact (lt_trans _ _ _ C C').
      * split; [exact Hn | split].
        -- exists vm. split; [apply in_or_app; now left | exact Em].
        -- intros v Hv. apply in_app_or in Hv.
           destruct Hv as [Hv | [<- | []]]; auto.
    + destruct (JS.ge (valueof d) (valueof d)) eqn:C; simpl.
      * apply ge_refl in C. split; [exact C | split].
        -- exists d. split; [apply in_or_app; right; now left | reflexivity].
        -- intros v Hv. apply in_app_or in Hv.
           destruct Hv as [Hv | [<- | []]]; [|apply lt_irrefl].
           rewrite (H v Hv). apply lt_NaN_r.
      * intros v Hv. apply in_app_or in Hv.
        destruct Hv as [Hv | [<- | []]]; [auto|].
        destruct (valueof d) as [| |q|]; try reflexivity;
          simpl in C; try discriminate.
        rewrite (proj1 (Qceq_alt q q) eq_refl) in C. discriminate.
Qed.

Lemma max_spec (values : list A) :
  max_of valueof (d3.max values valueof) values.
Proof. apply (max_fold values None []). simpl. intros v []. Qed.
End MaxFacts.

(** ** Rounding the domain *)








(** ** Colours *)

Lemma indexOf_app (l extra : list string) (c : string) :
  In c l -> indexOf string_dec (l ++ extra) c = indexOf string_dec l c.
Proof.
  induction l as [|y l IH]; intros H; [contradiction|]. simpl.
  destruct (string_dec y c) as [E | N]; [reflexivity|].
  destruct H as [H | H]; [contradiction|]. rewrite IH; auto.
Qed.

Lemma indexOf_In (l : list string) (c : string) :
  In c l -> exists i, indexOf string_dec l c = Some i.
Proof.
  induction l as [|y l IH]; intros H; [contradiction|]. simpl.
  destruct (string_dec y c) as [E | N]; [eauto|].
  destruct H as [H | H]; [contradiction|].
  destruct (IH H) as (i & ->). simpl. eauto.
Qed.

Lemma call_keeps (countries : list string) (scale : d3.Ordinal)
    (c : string) :
  keeps countries scale ->
  keeps countries (snd (d3.call scale c))
  /\ (In c countries -> fst (d3.call scale c) = assigned countries c).
Proof.
  intros [(extra & Hd) Hr]. unfold d3.call. split.
  - destruct (indexOf string_dec (d3.domain scale) c); simpl.
    + split; [eauto | exact Hr].
    + split; [|exact Hr]. exists (extra ++ [c]). rewrite Hd, app_assoc.
      reflexivity.
  - intros Hc. unfold assigned. rewrite Hd, (indexOf_app _ _ _ Hc).
    destruct (indexOf_In _ _ Hc) as (i & ->). simpl.
    unfold d3.range_at. rewrite Hr. reflexivity.
Qed.

Lemma colors_keeps (countries : list string) (ds : list string) :
  forall scale : d3.Ordinal,
    keeps countries scale ->
    keeps countries (snd (colors scale ds))
    /\ Forall2 (fun d c => In d countries -> c = assigned countries d)
               ds (fst (colors scale ds)).
Proof.
  induction ds as [|d0 ds IH]; intros scale H; simpl.
  - split; [exact H | constructor].
  - destruct (call_keeps countries scale d0 H) as [H1 H2].
    destruct (IH _ H1) as [H3 H4]. split; [exact H3|].
    constructor; assumption.
Qed.

Lemma Forall2_combine_In {A B C : Type} (P : B -> C -> Prop) (f : A -> B)
    (l : list A) :
  forall cs : list C,
    Forall2 P (map f l) cs ->
    forall b c, In (b, c) (combine l cs) -> P (f b) c.
Proof.
  induction l as [|a l IH]; intros cs H b c Hin; [contradiction|].
  simpl in H. inv H. simpl in Hin. destruct Hin as [E | Hin].
  - inv E. assumption.
  - eapply IH; eauto.
Qed.

Lemma Forall2_combine_In_swap {A B C : Type} (P : B -> C -> Prop)
    (f : A -> B) (l : list A) :
  forall cs : list C,
    Forall2 P (map f l) cs ->
    forall b c, In (c, b) (combine cs l) -> P (f b) c.
Proof.
  induction l as [|a l IH]; intros cs H b c Hin.
  - destruct cs; contradiction.
  - simpl in H. inv H. simpl in Hin. destruct Hin as [E | Hin].
    + inv E. assumption.
    + eapply IH; eauto.
Qed.

Lemma Set_fold_NoDup (l : list string) :
  forall set : list string,
    NoDup l -> (forall x, In x l -> ~ In x set) ->
    fold_left (Set_add string_dec) l set = set ++ l.
Proof.
  induction l as [|x l IH]; intros set ND H; simpl.
  - rewrite app_nil_r. reflexivity.
  - apply NoDup_cons_iff in ND. destruct ND as [Hx ND].
    unfold Set_add at 2.
    rewrite (proj2 (includes_false string_dec set x) (H x (or_introl eq_refl))).
    rewrite IH; [rewrite <- app_assoc; reflexivity | exact ND |].
    intros y Hy Hin. apply in_app_or in Hin.
    destruct Hin as [Hin | [<- | []]]; [|contradiction].
    apply (H y); [now right | exact Hin].
Qed.

Lemma insertBefore_In {T : Type} (next : option nat) (child x : nat * T)
    (children : list (nat * T)) :
  In x (d3.insertBefore next child children) -> x = child \/ In x children.
Proof.
  induction children as [|c children IH]; simpl.
  - intros [<- | []]. now left.
  - destruct (match next with Some k => fst c =? k | None => false end);
      simpl.
    + intros [<- | [<- | H]]; auto.
    + intros [<- | H]; auto. destruct (IH H); auto.
Qed.

Lemma fold_insertBefore_In {I T : Type} (next : I -> option nat)
    (child : I -> nat * T) (items : list I) :
  forall (children : list (nat * T)) (x : nat * T),
    In x (fold_left
            (fun children it => d3.insertBefore (next it) (child it) children)
            items children) ->
    In x children \/ exists it, In it items /\ x = child it.
Proof.
  induction items as [|it items IH]; intros children x H; simpl in H.
  - now left.
  - destruct (IH _ _ H) as [H' | (it' & Hit & ->)].
    + apply insertBefore_In in H'. destruct H' as [-> | H']; [|now left].
      right. exists it. split; [now left | reflexivity].
    + right. exists it'. split; [now right | reflexivity].
Qed.

Lemma updateLegend_stable (countries selectedCountries : list string)
    (pg : Page) :
  stable countries pg -> stable countries (updateLegend selectedCountries pg).
Proof.
  intros (Hk & Hl & Hp). unfold updateLegend.
  set (joined := combine _ _).
  set (isEnter := fun b : nat * (string * option nat) =>
                    match snd (snd b) with None => true | Some _ => false end).
  set (enter := filter isEnter joined).
  set (update := filter (fun b => negb (isEnter b)) joined).
  destruct (colors_keeps countries (map (fun b => fst (snd b)) enter)
              (color pg) Hk) as [Hk1 Hc1].
  set (entering := colors (color pg) _) in *.
  destruct (colors_keeps countries (map (fun b => fst (snd b)) update)
              (snd entering) Hk1) as [Hk2 Hc2].
  set (staying := colors (snd entering) _) in *.
  split; [exact Hk2 | split; [|exact Hp]].
  cbn [legend]. intros it Hit Hin.
  apply in_map_iff in Hit. destruct Hit as (x & <- & Hx).
  apply fold_insertBefore_In in Hx.
  destruct Hx as [Hx | (it0 & Hit0 & ->)].
  - apply in_flat_map in Hx. destruct Hx as (i & _ & Hx).
    apply in_map_iff in Hx. destruct Hx as (it0 & <- & Hit0).
    apply filter_In in Hit0. destruct Hit0 as [Hit0 _].
    apply in_map_iff in Hit0. destruct Hit0 as ([b c] & <- & Hbc).
    simpl in Hin |- *.
    exact (Forall2_combine_In _ (fun b => fst (snd b)) update _ Hc2 b c Hbc Hin).
  - apply in_map_iff in Hit0. destruct Hit0 as ([b c] & <- & Hbc).
    simpl in Hin |- *.
    exact (Forall2_combine_In _ (fun b => fst (snd b)) enter _ Hc1 b c Hbc Hin).
Qed.

Section StableFacts.
Context {host : Host}.
Variable emissionData : list Datum.t.

Lemma start_keeps :
  keeps (countries emissionData) (color (start emissionData)).
Proof.
  unfold start, keeps. simpl. split; [|reflexivity]. exists [].
  rewrite app_nil_r.
  apply (Set_fold_NoDup (countries emissionData) []).
  - apply new_Set_NoDup.
  - intros x _ [].
Qed.

Lemma start_stable : stable (countries emissionData) (start emissionData).
Proof.
  split; [apply start_keeps | split]; simpl; intros x [].
Qed.

(** The country of a series is a country of the data. *)
Lemma unique_countries (sc : list string) (gas ind : string)
    (unique : list (string * list Point.t)) :
  filteredUnique (filtered emissionData sc gas ind) = Normal unique ->
  forall cv, In cv unique -> In (fst cv) (countries emissionData).
Proof.
  intros H [c pts] Hin.
  assert (Hs : series emissionData sc gas ind
               = Normal (map (fun cv : string * list Point.t =>
                                (fst cv, sort byDate (snd cv))) unique)).
  { unfold series. rewrite H. reflexivity. }
  destruct (series_Normal _ _ _ _ _ Hs) as (unique' & E & (_ & Hd & _) & _).
  rewrite H in E. inv E.
  destruct (Hd _ _ Hin) as (Hne & _ & Hf).
  destruct pts as [|p pts]; [contradiction|].
  destruct (Hf p (or_introl eq_refl)) as [Hc Hfind].
  apply find_some in Hfind. destruct Hfind as [Hfl _].
  apply filtered_In in Hfl. destruct Hfl as (r & Hr & _ & ->).
  simpl in *. subst c. unfold countries, getUniqueValues.
  apply new_Set_In. apply in_map. exact Hr.
Qed.

Lemma updateVisualization_stable (pg : Page) :
  stable (countries emissionData) pg ->
  stable (countries emissionData)
         (snd (updateVisualization emissionData pg)).
Proof.
  intros Hs.
  pose proof (updateLegend_stable _ (checked pg) pg Hs) as (Hk & Hl & Hp).
  destruct (filteredUnique
              (filtered emissionData (checked pg) (gas_select pg)
                 (industry_select pg))) as [unique|e] eqn:E.
  - pose proof (unique_countries _ _ _ _ E) as Hc.
    unfold updateVisualization. cbv zeta. rewrite E.
    destruct unique as [|s unique].
    + simpl. split; [exact Hk | split; [exact Hl|]]. intros path [].
    + change (List.length (s :: unique) =? 0) with false. cbv iota.
      destruct (colors_keeps (countries emissionData)
                  (map fst (s :: unique))
                  (color (updateLegend (checked pg) pg)) Hk) as [Hk' Hc'].
      cbn [snd]. split; [exact Hk' | split; [exact Hl|]].
      cbn [chartGroup lines]. intros path Hin.
      apply in_map_iff in Hin. destruct Hin as ([c cv] & <- & Hin).
      cbn [title stroke fst snd].
      assert (Hcv : In (fst cv) (countries emissionData)).
      { apply Hc. apply in_combine_r in Hin. exact Hin. }
      split; [exact Hcv|].
      exact (Forall2_combine_In_swap _ fst (s :: unique) _ Hc' cv c
               Hin Hcv).
  - rewrite (updateVisualization_Throw _ _ _ E). simpl.
    split; [exact Hk | split; [exact Hl | exact Hp]].
Qed.
End StableFacts.

Lemma run_stable (host : Host) (emissionData : list Datum.t)
    (events : list Change) :
  forall pg : Page,
    stable (countries emissionData) pg ->
    stable (countries emissionData)
           (fold_left (on_change emissionData) events pg).
Proof.
  induction events as [|ev events IH]; intros pg H; simpl; [exact H|].
  apply IH. unfold on_change. apply updateVisualization_stable.
  destruct H as (Hk & Hl & Hp). split; [exact Hk | split; assumption].
Qed.

(** C9.  The colour of a country is assigned at the start, from its rank
    in the list of all the countries of the data: it is what the scale
    answers then, and after the first drawing and any sequence of
    changes of the selection, it is the colour of the country's row in
    the legend and of its line in the chart. *)
Theorem colors_fixed_at_start :
  forall (host : Host) (emissionData : list Datum.t)
         (events : list Change),
    (forall c, In c (countries emissionData) ->
       fst (d3.call (color (start emissionData)) c)
       = assigned (countries emissionData) c)
    /\ (forall item,
          In item (legend (run emissionData events)) ->
          In (datum item) (countries emissionData) ->
          background_color item
          = assigned (countries emissionData) (datum item))
    /\ (forall path,
          In path (lines (chartGroup (run emissionData events))) ->
          In (title path) (countries emissionData)
          /\ stroke path = assigned (countries emissionData) (title path)).
Proof.
  intros host data events. split.
  - intros c Hc.
    apply (call_keeps (countries data) _ c (start_keeps data)), Hc.
  - assert (H : stable (countries data) (run data events)).
    { unfold run. apply run_stable, updateVisualization_stable.
      apply start_stable. }
    destruct H as (_ & Hl & Hp). split; assumption.
Qed.

Example sample_colors :
  map (fun path => (title path, stroke path))
      (lines (chartGroup
                (run (host:=browser) Sample.data
                   [{| checkboxes := ["Canada"]; gas := "CO2";
                       industry := "Power" |};
                    {| checkboxes := ["USA"; "Canada"]; gas := "CO2";
                       industry := "Power" |}])))
  = [("USA", Some "#4e79a7"); ("Canada", Some "#f28e2c")]
  /\ map (fun item => (datum item, background_color item))
         (legend
            (run (host:=browser) Sample.data
               [{| checkboxes := ["Canada"]; gas := "CO2";
                   industry := "Power" |};
                {| checkboxes := ["USA"; "Canada"]; gas := "CO2";
                   industry := "Power" |}]))
     = [("USA", Some "#4e79a7"); ("Canada", Some "#f28e2c")].
Proof. split; vm_compute; reflexivity. Qed.

(** The scenario of C1 and C2: the second row of the same date and the
    row that is not adjusted are not in the series. *)
Lemma series_from_selected_records_sample :
  series (host:=browser) Sample.data ["USA"] "CO2" "Power"
  = Normal [("USA", [point (host:=browser) Sample.usa_jan;
                     point (host:=browser) Sample.usa_apr])]
  /\ (exists r,
         In r Sample.data
         /\ point (host:=browser) Sample.usa_jan = point (host:=browser) r
         /\ Datum.Country r = "USA"
         /\ In (Datum.Country r) ["USA"]
         /\ Datum.Gas_Type r = "CO2"
         /\ Datum.Industry r = "Power"
         /\ Datum.Seasonal_Adjustment r = "Seasonally Adjusted").
Proof.
  assert (H : series (host:=browser) Sample.data ["USA"] "CO2" "Power"
              = Normal [("USA", [point (host:=browser) Sample.usa_jan;
                                 point (host:=browser) Sample.usa_apr])])
    by (vm_compute; reflexivity).
  split; [exact H|].
  apply (proj1 (series_from_selected_records browser Sample.data ["USA"]
                  "CO2" "Power" _ H)
           "USA" [point (host:=browser) Sample.usa_jan;
                  point (host:=browser) Sample.usa_apr]).
  - simpl. left. reflexivity.
  - simpl. left. reflexivity.
Defined.

Lemma series_deduplicated_first_wins_sample :
  series (host:=browser) Sample.data ["USA"] "CO2" "Power"
  = Normal [("USA", [point (host:=browser) Sample.usa_jan;
                     point (host:=browser) Sample.usa_apr])]
  /\ NoDup (map pair_of
              [point (host:=browser) Sample.usa_jan;
               point (host:=browser) Sample.usa_apr]).
Proof.
  assert (H : series (host:=browser) Sample.data ["USA"] "CO2" "Power"
              = Normal [("USA", [point (host:=browser) Sample.usa_jan;
                                 point (host:=browser) Sample.usa_apr])])
    by (vm_compute; reflexivity).
  split; [exact H|].
  exact (proj1 (proj2 (series_deduplicated_first_wins browser Sample.data
                         ["USA"] "CO2" "Power" _ H))).
Defined.

Lemma lines_sorted_by_date_sample :
  fst (updateVisualization (host:=browser) Sample.data
         (Sample.page ["Canada"])) = Normal tt
  /\ map d (lines (chartGroup
                     (snd (updateVisualization (host:=browser) Sample.data
                             (Sample.page ["Canada"])))))
     = [[point (host:=browser) Sample.canada_jan;
         point (host:=browser) Sample.canada_apr]]
  /\ exists unique,
       filteredUnique
         (filtered (host:=browser) Sample.data ["Canada"] "CO2" "Power")
       = Normal unique
       /\ Forall2 (fun path cv =>
                     title path = fst cv
                     /\ Permutation (d path) (snd cv)
                     /\ StronglySorted no_later (d path))
            (lines (chartGroup
                      (snd (updateVisualization (host:=browser) Sample.data
                              (Sample.page ["Canada"])))))
            unique
       /\ series (host:=browser) Sample.data ["Canada"] "CO2" "Power"
          = Normal
              (map (fun path => (title path, d path))
                 (lines (chartGroup
                           (snd (updateVisualization (host:=browser)
                                   Sample.data (Sample.page ["Canada"])))))).
Proof.
  assert (H : fst (updateVisualization (host:=browser) Sample.data
                     (Sample.page ["Canada"])) = Normal tt)
    by (vm_compute; reflexivity).
  split; [exact H|]. split; [vm_compute; reflexivity|].
  exact (lines_sorted_by_date browser Sample.data (Sample.page ["Canada"]) H).
Defined.

(** C3, as the claim has it, fails: the series that lines 137-145 build
    hold the points in the order in which the records are met, for
    Canada April before January; the scales are computed from them as
    they are, and it is the drawing of the line that sorts them. *)
Lemma series_sorted_when_drawn_only :
  filteredUnique
    (filtered (host:=browser) Sample.data ["Canada"] "CO2" "Power")
  = Normal [("Canada", [point (host:=browser) Sample.canada_apr;
                        point (host:=browser) Sample.canada_jan])]
  /\ ~ StronglySorted no_later
        [point (host:=browser) Sample.canada_apr;
         point (host:=browser) Sample.canada_jan]
  /\ map d (lines (chartGroup
                     (snd (updateVisualization (host:=browser) Sample.data
                             (Sample.page ["Canada"])))))
     = [[point (host:=browser) Sample.canada_jan;
         point (host:=browser) Sample.canada_apr]].
Proof.
  split; [vm_compute; reflexivity|].
  split; [|vm_compute; reflexivity].
  intros H. apply StronglySorted_inv in H. destruct H as [_ H].
  apply Forall_inv in H. vm_compute in H. apply H. reflexivity.
Qed.



Lemma empty_result_clears_chart_sample :
  filteredUnique
    (filtered (host:=browser) Sample.data ["Mexico"] "CO2" "Power")
  = Normal []
  /\ fst (updateVisualization (host:=browser) Sample.data
            (Sample.page ["Mexico"])) = Normal tt
  /\ chartGroup (snd (updateVisualization (host:=browser) Sample.data
                        (Sample.page ["Mexico"]))) = [].
Proof.
  assert (H : filteredUnique
                (filtered (host:=browser) Sample.data ["Mexico"] "CO2"
                   "Power") = Normal [])
    by reflexivity.
  split; [exact H|].
  destruct (empty_result_clears_chart browser Sample.data
              (Sample.page ["Mexico"]) H) as (H1 & H2 & _).
  split; assumption.
Defined.

Lemma unparseable_date_throws_sample :
  d3.utcParse "2020-07-01" = None
  /\ fst (updateVisualization (host:=browser) Sample.broken
            (Sample.page ["USA"])) = Throw TypeError
  /\ chartGroup (snd (updateVisualization (host:=browser) Sample.broken
                        (Sample.page ["USA"]))) = [].
Proof.
  split; [reflexivity|].
  apply (unparseable_date_throws browser Sample.broken (Sample.page ["USA"])
           Sample.usa_jul_short).
  - unfold Sample.broken. apply in_or_app. right. left. reflexivity.
  - reflexivity.
  - reflexivity.
Defined.

(** ** The small data file, evaluated *)

Example sample_series :
  series (host:=browser) Sample.data ["Canada"; "USA"] "CO2" "Power"
  = Normal
      [("USA", [point (host:=browser) Sample.usa_jan;
                point (host:=browser) Sample.usa_apr]);
       ("Canada", [point (host:=browser) Sample.canada_jan;
                   point (host:=browser) Sample.canada_apr])].
Proof. vm_compute. reflexivity. Qed.

Example sample_unique :
  filteredUnique
    (filtered (host:=browser) Sample.data ["Canada"; "USA"] "CO2" "Power")
  = Normal
      [("USA", [point (host:=browser) Sample.usa_jan;
                point (host:=browser) Sample.usa_apr]);
       ("Canada", [point (host:=browser) Sample.canada_apr;
                   point (host:=browser) Sample.canada_jan])].
Proof. vm_compute. reflexivity. Qed.

(* ================================================================== *)
(** * More properties of the page *)
(* ================================================================== *)

(** ** The legend and the selection *)

Lemma bindKey_data (data : list string) :
  forall byKey : list (string * nat),
    map fst (d3.bindKey byKey data) = data.
Proof.
  induction data as [|d0 data IH]; intros byKey; simpl; [reflexivity|].
  destruct (d3.Map_get byKey d0); simpl; rewrite IH; reflexivity.
Qed.

Lemma nodeByKeyValue_bound (keys : list string) :
  forall (i : nat) (byKey : list (string * nat)),
    (forall kv, In kv byKey -> snd kv < i) ->
    forall kv, In kv (d3.nodeByKeyValue keys i byKey) ->
               snd kv < i + List.length keys.
Proof.
  induction keys as [|k keys IH]; intros i byKey H kv Hin; simpl in *.
  - rewrite Nat.add_0_r. auto.
  - replace (i + S (List.length keys)) with (S i + List.length keys) by lia.
    apply (IH (S i)) in Hin; [exact Hin|].
    intros kv' Hkv'.
    destruct (includes string_dec (map fst byKey) k).
    + specialize (H _ Hkv'). lia.
    + apply in_app_or in Hkv'. destruct Hkv' as [Hkv' | [<- | []]].
      * specialize (H _ Hkv'). lia.
      * simpl. lia.
Qed.

Lemma bindKey_bound (n : nat) (data : list string) :
  forall byKey : list (string * nat),
    (forall kv, In kv byKey -> snd kv < n) ->
    forall d0 node, In (d0, Some node) (d3.bindKey byKey data) -> node < n.
Proof.
  induction data as [|d1 data IH]; intros byKey H d0 node Hin; simpl in Hin;
    [contradiction|].
  unfold d3.Map_get in Hin.
  destruct (find (fun kv => String.eqb (fst kv) d1) byKey) as [kv|] eqn:E;
    simpl in Hin.
  - destruct Hin as [Hin | Hin].
    + inv Hin. apply find_some in E. apply H. tauto.
    + eapply IH; [|exact Hin]. intros kv' Hkv'. apply H.
      unfold d3.Map_delete in Hkv'. apply filter_In in Hkv'. tauto.
  - destruct Hin as [Hin | Hin]; [discriminate|]. eapply IH; eauto.
Qed.

Lemma insertBefore_Permutation {T : Type} (next : option nat)
    (child : nat * T) (children : list (nat * T)) :
  Permutation (d3.insertBefore next child children) (child :: children).
Proof.
  induction children as [|c children IH]; simpl; [reflexivity|].
  destruct (match next with Some k => fst c =? k | None => false end);
    [reflexivity|].
  rewrite IH. apply perm_swap.
Qed.

Lemma fold_insertBefore_Permutation {I T : Type} (next : I -> option nat)
    (child : I -> nat * T) (items : list I) :
  forall children : list (nat * T),
    Permutation
      (fold_left
         (fun children it => d3.insertBefore (next it) (child it) children)
         items children)
      (children ++ map child items).
Proof.
  induction items as [|it items IH]; intros children; simpl.
  - rewrite app_nil_r. reflexivity.
  - rewrite IH, insertBefore_Permutation. simpl.
    apply Permutation_middle.
Qed.

Lemma filter_partition_Permutation {A : Type} (f : A -> bool) (l : list A) :
  Permutation (filter (fun x => negb (f x)) l ++ filter f l) l.
Proof.
  induction l as [|a l IH]; simpl; [reflexivity|].
  destruct (f a); simpl.
  - rewrite <- Permutation_middle. apply perm_skip, IH.
  - apply perm_skip, IH.
Qed.

(** The nodes taken in the order of their place are the nodes. *)
Lemma by_place_Permutation {A B : Type} (place : A -> option nat)
    (g : A -> B) (l : list A) (n : nat) :
  Permutation
    (flat_map
       (fun i =>
          map g (filter (fun it => match place it with
                                   | Some node => node =? i
                                   | None => false
                                   end) l))
       (seq 0 n))
    (map g (filter (fun it => match place it with
                              | Some node => node <? n
                              | None => false
                              end) l)).
Proof.
  induction n as [|n IH].
  - simpl. induction l as [|a l IHl]; simpl; [reflexivity|].
    destruct (place a); simpl; exact IHl.
  - rewrite seq_S, flat_map_app, IH. simpl. rewrite app_nil_r.
    clear IH. induction l as [|a l IHl]; simpl; [reflexivity|].
    destruct (place a) as [node|]; [|exact IHl].
    destruct (Nat.ltb_spec node n) as [Hlt | Hge].
    + replace (node =? n) with false by (symmetry; apply Nat.eqb_neq; lia).
      replace (node <? S n) with true by (symmetry; apply Nat.ltb_lt; lia).
      simpl. apply perm_skip, IHl.
    + destruct (Nat.eqb_spec node n) as [-> | Hne].
      * replace (n <? S n) with true by (symmetry; apply Nat.ltb_lt; lia).
        simpl. rewrite <- Permutation_middle. apply perm_skip, IHl.
      * replace (node <? S n) with false by (symmetry; apply Nat.ltb_ge; lia).
        exact IHl.
Qed.

Lemma filter_true {A : Type} (l : list A) : filter (fun _ => true) l = l.
Proof. induction l as [|a l IH]; simpl; [|rewrite IH]; reflexivity. Qed.

Lemma map_fst_combine {A B : Type} (l : list A) :
  forall l' : list B,
    List.length l = List.length l' -> map fst (combine l l') = l.
Proof.
  induction l as [|a l IH]; intros [|b l'] H; simpl in *;
    try reflexivity; try discriminate.
  rewrite IH; [reflexivity | lia].
Qed.

Lemma nodeByKeyValue_nth (keys : list string) :
  forall (pre : list string) (byKey : list (string * nat)),
    (forall kv, In kv byKey ->
                nth_error (pre ++ keys) (snd kv) = Some (fst kv)) ->
    forall kv, In kv (d3.nodeByKeyValue keys (List.length pre) byKey) ->
               nth_error (pre ++ keys) (snd kv) = Some (fst kv).
Proof.
  induction keys as [|k keys IH]; intros pre byKey H kv Hin; simpl in Hin.
  - auto.
  - replace (pre ++ k :: keys) with ((pre ++ [k]) ++ keys) in *
      by (rewrite <- app_assoc; reflexivity).
    replace (S (List.length pre)) with (List.length (pre ++ [k])) in Hin
      by (rewrite length_app; simpl; lia).
    apply (IH _ _) in Hin; [exact Hin|].
    intros kv' Hkv'.
    destruct (includes string_dec (map fst byKey) k); [auto|].
    apply in_app_or in Hkv'. destruct Hkv' as [Hkv' | [<- | []]]; [auto|].
    simpl. rewrite <- app_assoc. simpl.
    rewrite nth_error_app2 by lia. rewrite Nat.sub_diag. reflexivity.
Qed.

Lemma bindKey_node (data : list string) :
  forall (byKey : list (string * nat)) (d0 : string) (node : nat),
    In (d0, Some node) (d3.bindKey byKey data) -> In (d0, node) byKey.
Proof.
  induction data as [|d1 data IH]; intros byKey d0 node Hin; simpl in Hin;
    [contradiction|].
  unfold d3.Map_get in Hin.
  destruct (find (fun kv => String.eqb (fst kv) d1) byKey) as [kv|] eqn:E;
    simpl in Hin.
  - destruct Hin as [Hin | Hin].
    + inv Hin. apply find_some in E. destruct E as [Hkv E].
      apply String.eqb_eq in E. destruct kv as [k n]. simpl in *. subst k.
      exact Hkv.
    + apply IH in Hin. unfold d3.Map_delete in Hin.
      apply filter_In in Hin. tauto.
  - destruct Hin as [Hin | Hin]; [discriminate|]. apply IH, Hin.
Qed.

(** The rows of the legend after the join, as a bag: the rows that stay
    and the rows that enter, one for each datum; a row that enters has
    its datum as label, a row that stays has the label of the node it
    is. *)
Lemma updateLegend_rows (selectedCountries : list string) (pg : Page) :
  Permutation (map datum (legend (updateLegend selectedCountries pg)))
              selectedCountries
  /\ forall item,
       In item (legend (updateLegend selectedCountries pg)) ->
       exists o,
         In (datum item, o)
            (d3.bindKey (d3.nodeByKeyValue (map datum (legend pg)) 0 [])
               selectedCountries)
         /\ text item
            = match o with
              | Some node => nth node (map text (legend pg)) (datum item)
              | None => datum item
              end.
Proof.
  unfold updateLegend.
  set (byKey := d3.nodeByKeyValue (map datum (legend pg)) 0 []).
  set (joined := combine _ _).
  set (isEnter := fun b : nat * (string * option nat) =>
                    match snd (snd b) with None => true | Some _ => false end).
  set (enter := filter isEnter joined).
  set (update := filter (fun b => negb (isEnter b)) joined).
  set (entering := colors (color pg) _).
  set (staying := colors (snd entering) _).
  set (item := fun bc : nat * (string * option nat) * option d3.Color => _).
  cbn [legend].
  set (children := fold_left _ _ _).
  assert (Hjoined : map (fun b : nat * (string * option nat) => fst (snd b))
                        joined = selectedCountries).
  { unfold joined. rewrite <- (map_map snd fst).
    rewrite map_snd_combine; [apply bindKey_data|].
    rewrite length_seq. rewrite <- (length_map fst), bindKey_data.
    reflexivity. }
  assert (Hbound : forall b, In b update ->
             match snd (snd b) with Some node => node <? List.length (legend pg)
                               | None => false end = true).
  { intros [j [d0 [node|]]] Hb; unfold update in Hb; apply filter_In in Hb;
      destruct Hb as [Hb Hf]; simpl in Hf |- *; [|discriminate].
    apply Nat.ltb_lt. unfold joined in Hb. apply in_combine_r in Hb.
    rewrite <- (length_map datum (legend pg)).
    apply (bindKey_bound _ selectedCountries byKey) with (d0 := d0);
      [|exact Hb].
    intros kv Hkv. apply (nodeByKeyValue_bound _ 0 []) in Hkv; [exact Hkv|].
    intros kv' []. }
  assert (Hchildren :
            Permutation children
              (map (fun it : nat * (option nat * LegendItem) =>
                      (fst it, snd (snd it)))
                   (map item (combine update (fst staying))
                    ++ map item (combine enter (fst entering))))).
  { unfold children. rewrite fold_insertBefore_Permutation.
    rewrite map_app. apply Permutation_app_tail.
    rewrite by_place_Permutation. apply Permutation_map.
    rewrite (filter_ext_in _ (fun _ => true)).
    - rewrite filter_true. reflexivity.
    - intros it Hit. apply in_map_iff in Hit.
      destruct Hit as ([b c] & <- & Hbc). simpl.
      apply in_combine_l in Hbc. apply (Hbound b Hbc). }
  split.
  - rewrite Hchildren, !map_map, map_app, !map_map. simpl.
    rewrite <- !(map_map fst (fun b : nat * (string * option nat) =>
                                fst (snd b))).
    rewrite !map_fst_combine
      by (unfold staying, entering; rewrite colors_length, length_map;
          reflexivity).
    rewrite <- map_app, <- Hjoined. apply Permutation_map.
    apply filter_partition_Permutation.
  - intros it Hit. apply in_map_iff in Hit. destruct Hit as (x & <- & Hx).
    apply (Permutation_in _ Hchildren) in Hx. apply in_map_iff in Hx.
    destruct Hx as (it0 & <- & Hit0). apply in_app_or in Hit0.
    assert (Hin : exists b c0, it0 = item (b, c0) /\ In b joined).
    { destruct Hit0 as [Hit0 | Hit0]; apply in_map_iff in Hit0;
        destruct Hit0 as ([b c0] & <- & Hbc); exists b, c0;
        (split; [reflexivity|]); apply in_combine_l in Hbc;
        [unfold update in Hbc | unfold enter in Hbc];
        apply filter_In in Hbc; tauto. }
    destruct Hin as ([j [d0 o]] & c0 & -> & Hbc). exists o.
    unfold joined in Hbc. apply in_combine_r in Hbc.
    split; [exact Hbc|]. simpl. destruct o; reflexivity.
Qed.

(** A row that enters is labelled with its country; a row that stays
    was a row of its country and has the label it had. *)
Lemma updateLegend_labels (selectedCountries : list string) (pg : Page)
    (item : LegendItem) :
  In item (legend (updateLegend selectedCountries pg)) ->
  text item = datum item
  \/ exists old,
       In old (legend pg) /\ datum old = datum item /\ text old = text item.
Proof.
  intros Hin.
  destruct (updateLegend_rows selectedCountries pg) as [_ H].
  destruct (H item Hin) as ([node|] & Hb & Ht); [right | now left].
  apply bindKey_node in Hb.
  apply (nodeByKeyValue_nth (map datum (legend pg)) [] []) in Hb;
    [|intros kv []].
  simpl in Hb. rewrite nth_error_map in Hb.
  destruct (nth_error (legend pg) node) as [old|] eqn:En; [|discriminate].
  simpl in Hb. injection Hb as Ed.
  exists old. split; [eapply nth_error_In, En|]. split; [exact Ed|].
  rewrite Ht, (nth_indep (map text (legend pg)) (datum item) (text old)).
  - rewrite map_nth. f_equal. symmetry. apply nth_error_nth, En.
  - rewrite length_map. apply nth_error_Some. rewrite En. discriminate.
Qed.

Lemma first_of_app (pre : list LegendItem) (row : LegendItem) (c : string) :
  first_of (pre ++ [row]) c
  = match first_of pre c with
    | Some old => Some old
    | None => if String.eqb (datum row) c then Some row else None
    end.
Proof.
  unfold first_of. induction pre as [|r pre IH]; simpl.
  - reflexivity.
  - destruct (String.eqb (datum r) c); [reflexivity | exact IH].
Qed.

Lemma Map_get_app (byKey : list (string * nat)) (k c : string) (i : nat) :
  d3.Map_get (byKey ++ [(k, i)]) c
  = match d3.Map_get byKey c with
    | Some n => Some n
    | None => if String.eqb k c then Some i else None
    end.
Proof.
  unfold d3.Map_get. induction byKey as [|[k0 n0] byKey IH]; simpl.
  - destruct (String.eqb k c); reflexivity.
  - destruct (String.eqb k0 c); [reflexivity | exact IH].
Qed.

Lemma Map_get_Some (byKey : list (string * nat)) (c : string) :
  In c (map fst byKey) -> d3.Map_get byKey c <> None.
Proof.
  unfold d3.Map_get. induction byKey as [|[k0 n0] byKey IH]; simpl.
  - intros [].
  - destruct (String.eqb k0 c) eqn:E; [discriminate|].
    intros [-> | H]; [|exact (IH H)].
    rewrite String.eqb_refl in E. discriminate.
Qed.

Lemma Map_get_delete (byKey : list (string * nat)) (d1 d0 : string) :
  d0 <> d1 -> d3.Map_get (d3.Map_delete byKey d1) d0 = d3.Map_get byKey d0.
Proof.
  intros Hne. unfold d3.Map_get, d3.Map_delete.
  induction byKey as [|[k0 n0] byKey IH]; simpl; [reflexivity|].
  destruct (String.eqb k0 d1) eqn:E1; simpl.
  - apply String.eqb_eq in E1. subst k0.
    destruct (String.eqb d1 d0) eqn:E0; [|exact IH].
    apply String.eqb_eq in E0. congruence.
  - destruct (String.eqb k0 d0); [reflexivity | exact IH].
Qed.

(** The map of the join gives every country the place of its first
    row. *)
Lemma nodeByKeyValue_places (rows : list LegendItem) :
  forall (pre : list LegendItem) (byKey : list (string * nat)),
    places pre byKey ->
    places (pre ++ rows)
           (d3.nodeByKeyValue (map datum rows) (List.length pre) byKey).
Proof.
  induction rows as [|row rows IH]; intros pre byKey H; simpl.
  - rewrite app_nil_r. exact H.
  - replace (pre ++ row :: rows) with ((pre ++ [row]) ++ rows)
      by (rewrite <- app_assoc; reflexivity).
    replace (S (List.length pre)) with (List.length (pre ++ [row]))
      by (rewrite length_app; simpl; lia).
    apply IH. intros c. specialize (H c).
    assert (Hold : forall n,
               d3.Map_get byKey c = Some n ->
               first_of (pre ++ [row]) c <> None
               /\ nth_error (pre ++ [row]) n = first_of (pre ++ [row]) c).
    { intros n En. rewrite En in H. destruct H as [Hf Hn].
      rewrite first_of_app.
      destruct (first_of pre c) as [old|]; [|contradiction].
      split; [discriminate|].
      rewrite nth_error_app1; [exact Hn|].
      apply nth_error_Some. rewrite Hn. discriminate. }
    destruct (includes string_dec (map fst byKey) (datum row)) eqn:Ei.
    + destruct (d3.Map_get byKey c) as [n|] eqn:En; [exact (Hold n eq_refl)|].
      rewrite first_of_app, H.
      destruct (String.eqb (datum row) c) eqn:Ec; [|reflexivity].
      apply String.eqb_eq in Ec. subst c. apply includes_true in Ei.
      exfalso. exact (Map_get_Some _ _ Ei En).
    + rewrite Map_get_app.
      destruct (d3.Map_get byKey c) as [n|] eqn:En; [exact (Hold n eq_refl)|].
      rewrite first_of_app, H.
      destruct (String.eqb (datum row) c); [|reflexivity].
      split; [discriminate|].
      rewrite nth_error_app2 by lia. rewrite Nat.sub_diag. reflexivity.
Qed.

(** With no datum twice, each datum is joined to the node its key has in
    the map. *)
Lemma bindKey_get (data : list string) :
  forall (byKey : list (string * nat)) (d0 : string) (o : option nat),
    NoDup data ->
    In (d0, o) (d3.bindKey byKey data) -> o = d3.Map_get byKey d0.
Proof.
  induction data as [|d1 data IH]; intros byKey d0 o ND Hin; simpl in Hin;
    [contradiction|].
  apply NoDup_cons_iff in ND. destruct ND as [Hnin ND].
  assert (Hne : In (d0, o) (d3.bindKey byKey data)
                \/ In (d0, o) (d3.bindKey (d3.Map_delete byKey d1) data) ->
                d0 <> d1).
  { intros [H | H]; apply (in_map fst) in H; rewrite bindKey_data in H;
      simpl in H; congruence. }
  destruct (d3.Map_get byKey d1) as [node|] eqn:E; simpl in Hin;
    destruct Hin as [Hin | Hin]; try (inv Hin; symmetry; exact E).
  - rewrite (IH _ _ _ ND Hin). apply Map_get_delete. apply Hne. now right.
  - exact (IH _ _ _ ND Hin).
Qed.

(** With no country checked twice, the label of a row after the join is
    the label its country had before. *)
Lemma updateLegend_label_of (selectedCountries : list string) (pg : Page)
    (item : LegendItem) :
  NoDup selectedCountries ->
  In item (legend (updateLegend selectedCountries pg)) ->
  text item = label_of (legend pg) (datum item).
Proof.
  intros ND Hin.
  destruct (updateLegend_rows selectedCountries pg) as [_ H].
  destruct (H item Hin) as (o & Hb & Ht).
  apply (bindKey_get _ _ _ _ ND) in Hb.
  pose proof (nodeByKeyValue_places (legend pg) [] []
                (fun c => eq_refl) (datum item)) as Hp.
  simpl in Hp. rewrite <- Hb in Hp. rewrite Ht. unfold label_of.
  destruct o as [node|].
  - destruct Hp as [Hf Hn].
    destruct (first_of (legend pg) (datum item)) as [old|]; [|contradiction].
    apply nth_error_nth. rewrite nth_error_map, Hn. reflexivity.
  - rewrite Hp. reflexivity.
Qed.

(** ** The order and the content of the series *)

Lemma Map_push_Set_add {K V : Type}
    (eq_dec : forall x y : K, {x = y} + {x <> y})
    (groups : list (K * d3.Group (V:=V))) (k : K) (v : V) :
  map fst (d3.Map_push eq_dec groups k v)
  = Set_add eq_dec (map fst groups) k.
Proof.
  unfold Set_add. induction groups as [|[k0 g0] groups IH]; simpl.
  - reflexivity.
  - destruct (eq_dec k0 k) as [-> | Hne]; simpl.
    + rewrite (proj2 (includes_true eq_dec (k :: map fst groups) k));
        [reflexivity | now left].
    + rewrite IH.
      destruct (includes eq_dec (map fst groups) k) eqn:E.
      * apply includes_true in E.
        rewrite (proj2 (includes_true eq_dec (k0 :: map fst groups) k));
          [reflexivity | now right].
      * apply includes_false in E.
        rewrite (proj2 (includes_false eq_dec (k0 :: map fst groups) k));
          [reflexivity|]. intros [H | H]; auto.
Qed.

Lemma group_into_keys {K V : Type}
    (eq_dec : forall x y : K, {x = y} + {x <> y}) (key : V -> K)
    (keyof : V -> Completion K) (values : list V) :
  forall groups groups' : list (K * d3.Group),
    (forall v, In v values -> keyof v = Normal (key v)) ->
    d3.group_into eq_dec keyof groups values = Normal groups' ->
    map fst groups'
    = fold_left (Set_add eq_dec) (map key values) (map fst groups).
Proof.
  induction values as [|v values IH]; intros groups groups' Hk H;
    simpl in *.
  - inv H. reflexivity.
  - rewrite (Hk v (or_introl eq_refl)) in H. simpl in H.
    rewrite (IH _ _ (fun v' Hv' => Hk v' (or_intror Hv')) H).
    rewrite Map_push_Set_add. reflexivity.
Qed.

Lemma mapM_Normal_inv {A B : Type} (f : A -> Completion B) (l : list A) :
  forall bs : list B,
    mapM f l = Normal bs -> Forall2 (fun a b => f a = Normal b) l bs.
Proof.
  induction l as [|a l IH]; intros bs H; simpl in H.
  - inv H. constructor.
  - destruct (f a) as [b|e] eqn:E; simpl in H; [|discriminate].
    destruct (mapM f l) as [bs'|e]; simpl in H; [|discriminate].
    inv H. constructor; auto.
Qed.

(** The entries of [filteredUnique]: the countries in the order in which
    they are first met, and for each the first point of every group by
    date of the points of that country. *)
Lemma filteredUnique_entries (filtered : list Point.t)
    (unique : list (string * list Point.t)) :
  filteredUnique filtered = Normal unique ->
  map fst unique = new_Set string_dec (map Point.country filtered)
  /\ forall c pts,
       In (c, pts) unique ->
       exists inner,
         d3.group Z.eq_dec (fun d => getTime (Point.date d))
           (keyed string_dec Point.country c filtered) = Normal inner
         /\ pts = map (fun kg2 : Z * d3.Group => fst (snd kg2)) inner.
Proof.
  unfold filteredUnique, d3.rollup. intros H.
  destruct (group_Normal string_dec Point.country
              (fun d => Normal (Point.country d)) filtered)
    as (outer & E & NDo & Hgo & Hko); [reflexivity|].
  pose proof (group_into_keys string_dec Point.country _ filtered [] outer
                (fun v _ => eq_refl) E) as Hkeys.
  rewrite E in H. simpl in H.
  destruct (mapM _ outer) as [bs|e] eqn:Em; simpl in H; [|discriminate].
  inv H. apply mapM_Normal_inv in Em. split.
  - rewrite map_map. simpl.
    change (map (fun x : string * list (Z * Point.t) => fst x) bs)
      with (map fst bs).
    assert (Hfst : forall (x : string * d3.Group)
                          (y : string * list (Z * Point.t)),
               (inner <-
                  d3.group Z.eq_dec (fun d : Point.t => getTime (Point.date d))
                    (d3.to_array (snd x)) ;;
                Normal (fst x,
                        map (fun kg2 : Z * d3.Group =>
                               (fst kg2, fst (snd kg2))) inner))
               = Normal y -> fst y = fst x).
    { intros x y Hxy.
      destruct (d3.group Z.eq_dec _ (d3.to_array (snd x))); simpl in Hxy;
        [|discriminate]. inv Hxy. reflexivity. }
    rewrite (Forall2_map_fst _ _ _ Hfst Em). exact Hkeys.
  - intros c pts Hin. apply in_map_iff in Hin.
    destruct Hin as ([c' m] & Ec & Hin). simpl in Ec. inv Ec.
    destruct (Forall2_In_r _ _ _ _ Em Hin) as ([c0 g] & Hg & Hf).
    simpl in Hf.
    destruct (d3.group Z.eq_dec _ (d3.to_array g)) as [inner|e] eqn:Ei;
      simpl in Hf; [|discriminate]. inv Hf.
    exists inner. rewrite <- (Hgo _ _ Hg). split; [exact Ei|].
    rewrite map_map. reflexivity.
Qed.

Lemma keyed_map {K A V : Type} (eq_dec : forall x y : K, {x = y} + {x <> y})
    (key : V -> K) (f : A -> V) (k : K) (l : list A) :
  keyed eq_dec key k (map f l)
  = map f (filter (fun x => if eq_dec (key (f x)) k then true else false) l).
Proof.
  unfold keyed. induction l as [|a l IH]; simpl; [reflexivity|].
  destruct (eq_dec (key (f a)) k); simpl; rewrite IH; reflexivity.
Qed.

Section SeriesFacts.
Context {host : Host}.
Variable emissionData : list Datum.t.

(** The points of a selected country, whatever else is selected. *)
Lemma keyed_filtered (sc : list string) (gas ind c : string) :
  In c sc ->
  keyed string_dec Point.country c (filtered emissionData sc gas ind)
  = map point
      (filter (fun r =>
                 String.eqb (Datum.Gas_Type r) gas
                 && String.eqb (Datum.Industry r) ind
                 && String.eqb (Datum.Seasonal_Adjustment r)
                      "Seasonally Adjusted"
                 && String.eqb (Datum.Country r) c)
              emissionData).
Proof.
  intros Hc. unfold filtered. rewrite keyed_map, filter_filter. f_equal.
  apply filter_ext. intros r. unfold selected. simpl.
  destruct (string_dec (Datum.Country r) c) as [E | N].
  - rewrite (proj2 (String.eqb_eq _ _) E).
    rewrite (proj2 (includes_true string_dec sc (Datum.Country r)))
      by (rewrite E; exact Hc).
    simpl. rewrite !andb_true_r. reflexivity.
  - rewrite (proj2 (String.eqb_neq _ _) N), !andb_false_r. reflexivity.
Qed.

Lemma filtered_countries (sc : list string) (gas ind : string) :
  map Point.country (filtered emissionData sc gas ind)
  = map Datum.Country (filter (selected sc gas ind) emissionData).
Proof. unfold filtered. rewrite map_map. reflexivity. Qed.

Lemma unique_country_selected (sc : list string) (gas ind : string)
    (unique : list (string * list Point.t)) (c : string) :
  filteredUnique (filtered emissionData sc gas ind) = Normal unique ->
  In c (map fst unique) -> In c sc.
Proof.
  intros H Hc. destruct (filteredUnique_entries _ _ H) as [Hk _].
  rewrite Hk in Hc. apply new_Set_In in Hc. rewrite filtered_countries in Hc.
  apply in_map_iff in Hc. destruct Hc as (r & <- & Hr).
  apply filter_In in Hr. destruct Hr as [_ Hr].
  apply selected_true in Hr. tauto.
Qed.
End SeriesFacts.

(** X3.  The lines are drawn in the order in which their countries are
    first met among the records that pass the filter. *)
Theorem lines_in_first_seen_order :
  forall (host : Host) (emissionData : list Datum.t) (pg : Page),
    fst (updateVisualization emissionData pg) = Normal tt ->
    map title (lines (chartGroup (snd (updateVisualization emissionData pg))))
    = getUniqueValues string_dec
        (filter (selected (checked pg) (gas_select pg) (industry_select pg))
                emissionData)
        Datum.Country.
Proof.
  intros host data pg H.
  destruct (filteredUnique
              (filtered data (checked pg) (gas_select pg) (industry_select pg)))
    as [unique|e] eqn:E.
  - destruct (updateVisualization_Normal data pg unique E)
      as (_ & _ & _ & _ & Hl).
    apply (f_equal (map fst)) in Hl. rewrite !map_map in Hl. simpl in Hl.
    destruct (filteredUnique_entries _ _ E) as [Hk _].
    rewrite filtered_countries in Hk.
    exact (eq_trans Hl Hk).
  - rewrite (updateVisualization_Throw data pg e E) in H. discriminate.
Qed.

(** Two selections that both give series give a country they share the
    same series. *)
Lemma series_of_country_Normal (host : Host) (data : list Datum.t)
    (sc sc' : list string) (gas ind : string)
    (out out' : list (string * list Point.t))
    (c : string) (pts : list Point.t) :
  series data sc gas ind = Normal out ->
  series data sc' gas ind = Normal out' ->
  In c sc' ->
  In (c, pts) out ->
  In (c, pts) out'.
Proof.
  intros H H' Hc' Hin.
  destruct (series_Normal _ _ _ _ _ H) as (unique & E & _ & _ & ->).
  destruct (series_Normal _ _ _ _ _ H') as (unique' & E' & _ & _ & ->).
  apply in_map_iff in Hin. destruct Hin as ([c0 pts0] & Ec & Hin).
  simpl in Ec. inv Ec.
  assert (Hc : In c sc).
  { apply (unique_country_selected data sc gas ind unique c E).
    apply (in_map fst) in Hin. exact Hin. }
  destruct (filteredUnique_entries _ _ E) as [Hk He].
  destruct (filteredUnique_entries _ _ E') as [Hk' He'].
  destruct (He _ _ Hin) as (inner & Hg & ->).
  assert (Hc0 : In c (map fst unique')).
  { rewrite Hk'. apply new_Set_In. rewrite filtered_countries.
    pose proof (in_map fst _ _ Hin) as Hin0. simpl in Hin0.
    rewrite Hk in Hin0. apply new_Set_In in Hin0.
    rewrite filtered_countries in Hin0. apply in_map_iff in Hin0.
    destruct Hin0 as (r & Er & Hr). rewrite <- Er.
    apply in_map. apply filter_In in Hr.
    destruct Hr as [Hr Hs]. apply filter_In. split; [exact Hr|].
    apply selected_true in Hs. apply selected_true. rewrite Er. tauto. }
  apply in_map_iff in Hc0. destruct Hc0 as ([c1 pts1] & Ec & Hin1).
  simpl in Ec. subst c1. destruct (He' _ _ Hin1) as (inner' & Hg' & ->).
  rewrite (keyed_filtered data sc gas ind c Hc) in Hg.
  rewrite (keyed_filtered data sc' gas ind c Hc') in Hg'.
  rewrite Hg in Hg'. inv Hg'.
  apply in_map_iff.
  exists (c, map (fun kg2 : Z * d3.Group => fst (snd kg2)) inner').
  split; [reflexivity | exact Hin1].
Qed.

(** X4.  The series of a country does not depend on which other
    countries are selected, as long as series are returned at all: when
    a selection gives a country a series, any other selection with that
    country gives it the same series, or gives no series to any country
    and throws a TypeError, and then a record of a country that was not
    in the first selection has a date that is not parsed. *)
Theorem series_of_country_unchanged :
  forall (host : Host) (emissionData : list Datum.t)
         (selectedCountries selectedCountries' : list string)
         (selectedGas selectedIndustry : string)
         (out : list (string * list Point.t))
         (c : string) (pts : list Point.t),
    series emissionData selectedCountries selectedGas selectedIndustry
    = Normal out ->
    In c selectedCountries' ->
    In (c, pts) out ->
    (exists out',
        series emissionData selectedCountries' selectedGas selectedIndustry
        = Normal out'
        /\ In (c, pts) out')
    \/ (series emissionData selectedCountries' selectedGas selectedIndustry
        = Throw TypeError
        /\ exists r,
             In r emissionData
             /\ selected selectedCountries' selectedGas selectedIndustry r
                = true
             /\ ~ In (Datum.Country r) selectedCountries
             /\ parseDate (Datum.date r) = None).
Proof.
  intros host data sc sc' gas ind out c pts H Hc' Hin.
  destruct (find (fun p : Point.t =>
                    match Point.date p with None => true | Some _ => false end)
                 (filtered data sc' gas ind)) as [p|] eqn:Ef.
  - right. apply find_some in Ef. destruct Ef as [Hp Hn].
    destruct (Point.date p) eqn:Ed; [discriminate|]. clear Hn.
    split.
    + unfold series. rewrite filteredUnique_Throw; [reflexivity|].
      exists p. auto.
    + apply filtered_In in Hp. destruct Hp as (r & Hr & Hs & ->).
      exists r. split; [exact Hr|]. split; [exact Hs|].
      split; [|exact Ed].
      intros Hsc.
      destruct (series_Normal _ _ _ _ _ H) as (_ & _ & _ & Hd & _).
      apply (Hd (point r)); [|exact Ed].
      apply filtered_In. exists r. split; [exact Hr|].
      split; [|reflexivity].
      apply selected_true in Hs. apply selected_true. tauto.
  - left.
    destruct (filteredUnique_Normal (filtered data sc' gas ind))
      as (unique' & E' & _).
    { intros p Hp Hn. apply (find_none _ _ Ef) in Hp. rewrite Hn in Hp.
      discriminate. }
    exists (map (fun cv : string * list Point.t =>
                   (fst cv, sort byDate (snd cv))) unique').
    assert (H' : series data sc' gas ind
                 = Normal (map (fun cv : string * list Point.t =>
                                  (fst cv, sort byDate (snd cv))) unique')).
    { unfold series. rewrite E'. reflexivity. }
    split; [exact H'|].
    exact (series_of_country_Normal host data sc sc' gas ind _ _ c pts
             H H' Hc' Hin).
Qed.

(** X5.  No pair is lost: every record that passes the filter has its
    date parsed, and its country's series holds a point of that date. *)
Theorem every_selected_record_is_represented :
  forall (host : Host) (emissionData : list Datum.t)
         (selectedCountries : list string)
         (selectedGas selectedIndustry : string)
         (out : list (string * list Point.t)) (r : Datum.t),
    series emissionData selectedCountries selectedGas selectedIndustry
    = Normal out ->
    In r emissionData ->
    selected selectedCountries selectedGas selectedIndustry r = true ->
    parseDate (Datum.date r) <> None
    /\ exists pts p,
         In (Datum.Country r, pts) out
         /\ In p pts
         /\ Point.date p = parseDate (Datum.date r).
Proof.
  intros host data sc gas ind out r H Hr Hs.
  destruct (series_Normal _ _ _ _ _ H) as (unique & _ & (_ & _ & Hc) & Hd & ->).
  assert (Hp : In (point r) (filtered data sc gas ind)).
  { apply filtered_In. exists r. auto. }
  split; [exact (Hd _ Hp)|].
  destruct (Hc _ Hp) as (pts & p & Hin & Hpp & Ed). simpl in Hin, Ed.
  exists (sort byDate pts), p. split; [|split; [|exact Ed]].
  - apply in_map_iff. exists (Datum.Country r, pts). auto.
  - apply sort_In, Hpp.
Qed.

(** X6.  The drawing completes exactly when the date of every record
    that passes the filter is parsed; the only thing it throws is a
    [TypeError]. *)
Theorem redraw_completes_iff_dates_parse :
  forall (host : Host) (emissionData : list Datum.t) (pg : Page),
    (fst (updateVisualization emissionData pg) = Normal tt
     <-> forall r,
           In r emissionData ->
           selected (checked pg) (gas_select pg) (industry_select pg) r
           = true ->
           parseDate (Datum.date r) <> None)
    /\ (forall e,
          fst (updateVisualization emissionData pg) = Throw e ->
          e = TypeError).
Proof.
  intros host data pg.
  set (fl := filtered data (checked pg) (gas_select pg) (industry_select pg)).
  assert (Hall : (forall p, In p fl -> Point.date p <> None)
                 <-> forall r, In r data ->
                       selected (checked pg) (gas_select pg)
                         (industry_select pg) r = true ->
                       parseDate (Datum.date r) <> None).
  { split.
    - intros H r Hr Hs. apply (H (point r)). apply filtered_In. exists r. auto.
    - intros H p Hp. apply filtered_In in Hp.
      destruct Hp as (r & Hr & Hs & ->). apply (H r Hr Hs). }
  destruct (filteredUnique fl) as [unique|e] eqn:E.
  - destruct (updateVisualization_Normal data pg unique E) as (H1 & _).
    split; [split; [intros _ | intros _; exact H1] | rewrite H1; discriminate].
    apply Hall. intros p Hp Hn.
    rewrite (filteredUnique_Throw fl) in E; [discriminate|]. exists p. auto.
  - rewrite (updateVisualization_Throw data pg e E). simpl.
    assert (He : e = TypeError /\ exists p, In p fl /\ Point.date p = None).
    { destruct (List.find (fun p => match Point.date p with
                                    | None => true | Some _ => false end) fl)
        as [p|] eqn:F.
      - apply find_some in F. destruct F as [Hp Hn].
        destruct (Point.date p) eqn:Ed; [discriminate|].
        rewrite (filteredUnique_Throw fl) in E by (exists p; auto).
        inv E. split; [reflexivity|]. exists p. auto.
      - destruct (filteredUnique_Normal fl) as (u & Eu & _).
        + intros p Hp Hn. apply (find_none _ _ F) in Hp. rewrite Hn in Hp.
          discriminate.
        + rewrite Eu in E. discriminate. }
    destruct He as (-> & p & Hp & Hn).
    split; [split; [discriminate|] | intros e H; inv H; reflexivity].
    intros H. exfalso. apply (proj2 Hall H p Hp Hn).
Qed.

(** ** Strictly ascending lines *)

Lemma no_later_earlier (l : list Point.t) :
  StronglySorted no_later l ->
  NoDup (map Point.date l) ->
  StronglySorted earlier l.
Proof.
  induction 1 as [|a l Hs IH Ha]; intros ND; [constructor|].
  simpl in ND. apply NoDup_cons_iff in ND. destruct ND as [Hn ND].
  constructor; [apply IH, ND|].
  rewrite Forall_forall in *. intros x Hx. specialize (Ha x Hx).
  unfold no_later, earlier in *.
  destruct (Point.date a) as [ta|] eqn:Ea; [|contradiction].
  destruct (Point.date x) as [tx|] eqn:Ex; [|contradiction].
  destruct (Z.eq_dec ta tx) as [E | N]; [|lia].
  exfalso. apply Hn. rewrite E, <- Ex. apply in_map, Hx.
Qed.

Section MoreDrawingFacts.
Context {host : Host}.
Variable emissionData : list Datum.t.

(** The series, one by one: what each holds. *)
Lemma series_entries (sc : list string) (gas ind : string)
    (out : list (string * list Point.t)) :
  series emissionData sc gas ind = Normal out ->
  NoDup (map fst out)
  /\ forall c pts,
       In (c, pts) out ->
       In c sc
       /\ pts <> []
       /\ StronglySorted earlier pts
       /\ NoDup (map Point.date pts)
       /\ forall p, In p pts ->
            Point.country p = c
            /\ In p (filtered emissionData sc gas ind).
Proof.
  intros H.
  destruct (series_Normal _ _ _ _ _ H)
    as (unique & E & (ND & Hs & _) & Hd & ->).
  split; [rewrite map_map; exact ND|].
  intros c pts Hin. apply in_map_iff in Hin.
  destruct Hin as ([c' pts0] & Ec & Hin). simpl in Ec. inv Ec.
  destruct (Hs _ _ Hin) as (Hne & NDd & Hf).
  assert (Hfl : forall p, In p pts0 ->
                  Point.country p = c
                  /\ In p (filtered emissionData sc gas ind)).
  { intros p Hp. destruct (Hf p Hp) as [Hc Hfind].
    apply find_some in Hfind. tauto. }
  assert (NDs : NoDup (map Point.date (sort byDate pts0))).
  { eapply Permutation_NoDup; [|exact NDd].
    apply Permutation_map. symmetry. apply sort_Permutation. }
  split; [|split; [|split; [|split; [exact NDs|]]]].
  - apply (unique_country_selected emissionData sc gas ind unique c E).
    apply (in_map fst) in Hin. exact Hin.
  - intros N. apply Hne.
    apply Permutation_nil. rewrite <- N. apply sort_Permutation.
  - apply no_later_earlier; [|exact NDs].
    apply sort_byDate_no_later. intros p Hp. apply Hd, (Hfl p Hp).
  - intros p Hp. apply sort_In in Hp. apply Hfl, Hp.
Qed.

(** The chart a drawing leaves when the result is not empty. *)
Lemma updateVisualization_chart (pg : Page)
    (unique : list (string * list Point.t)) :
  filteredUnique
    (filtered emissionData (checked pg) (gas_select pg) (industry_select pg))
  = Normal unique ->
  unique <> [] ->
  chartGroup (snd (updateVisualization emissionData pg))
  = [AxisBottom (d3.extent (flat_map snd unique) Point.date);
     AxisLeft (nice (Finite (Q2Qc 0), top (flat_map snd unique)));
     Lines (lines (chartGroup (snd (updateVisualization emissionData pg))))].
Proof.
  intros H Hne. unfold updateVisualization. cbv zeta. rewrite H.
  destruct unique as [|s unique]; [contradiction|].
  change (List.length (s :: unique) =? 0) with false. cbv iota.
  reflexivity.
Qed.
End MoreDrawingFacts.

(** X7.  In every line drawn the dates are strictly ascending, and no
    line is without a point. *)
Theorem lines_strictly_ascending :
  forall (host : Host) (emissionData : list Datum.t) (pg : Page)
         (path : Path),
    fst (updateVisualization emissionData pg) = Normal tt ->
    In path (lines (chartGroup (snd (updateVisualization emissionData pg)))) ->
    d path <> [] /\ StronglySorted earlier (d path).
Proof.
  intros host data pg path H Hin.
  destruct (filteredUnique
              (filtered data (checked pg) (gas_select pg) (industry_select pg)))
    as [unique|e] eqn:E.
  - destruct (updateVisualization_Normal data pg unique E)
      as (_ & _ & _ & _ & Hl).
    assert (Hs : series data (checked pg) (gas_select pg) (industry_select pg)
                 = Normal (map (fun cv : string * list Point.t =>
                                  (fst cv, sort byDate (snd cv))) unique)).
    { unfold series. rewrite E. reflexivity. }
    destruct (series_entries data _ _ _ _ Hs) as [_ He].
    destruct (He (title path) (d path)) as (_ & Hne & Hsorted & _).
    + rewrite <- Hl. apply in_map_iff. exists path. auto.
    + auto.
  - rewrite (updateVisualization_Throw data pg e E) in H. discriminate.
Qed.

Lemma NoDup_map_injective {A B : Type} (f : A -> B) (l : list A) (x y : A) :
  NoDup (map f l) -> In x l -> In y l -> f x = f y -> x = y.
Proof.
  induction l as [|a l IH]; intros ND Hx Hy E; [contradiction|].
  simpl in ND. apply NoDup_cons_iff in ND. destruct ND as [Hn ND].
  destruct Hx as [-> | Hx], Hy as [-> | Hy]; auto.
  - exfalso. apply Hn. rewrite E. apply in_map, Hy.
  - exfalso. apply Hn. rewrite <- E. apply in_map, Hx.
Qed.

Lemma flat_map_snd_Permutation (unique : list (string * list Point.t)) :
  Permutation
    (flat_map snd
       (map (fun cv : string * list Point.t =>
               (fst cv, sort byDate (snd cv))) unique))
    (flat_map snd unique).
Proof.
  induction unique as [|[c pts] unique IH]; simpl; [reflexivity|].
  apply Permutation_app; [apply sort_Permutation | exact IH].
Qed.

(** X8.  When no two records that pass the filter have the same country
    and the same parsed date, the deduplication drops nothing: the
    points of the series are the points of these records. *)
Theorem deduplication_drops_nothing_without_duplicates :
  forall (host : Host) (emissionData : list Datum.t)
         (selectedCountries : list string)
         (selectedGas selectedIndustry : string)
         (out : list (string * list Point.t)),
    series emissionData selectedCountries selectedGas selectedIndustry
    = Normal out ->
    NoDup (map pair_of
             (filtered emissionData selectedCountries selectedGas
                selectedIndustry)) ->
    Permutation (flat_map snd out)
      (filtered emissionData selectedCountries selectedGas selectedIndustry).
Proof.
  intros host data sc gas ind out H ND.
  destruct (series_Normal _ _ _ _ _ H)
    as (unique & E & (NDc & Hs & Hc) & Hd & ->).
  rewrite flat_map_snd_Permutation.
  assert (Hin : forall p, In p (flat_map snd unique) ->
                          In p (filtered data sc gas ind)).
  { intros p Hp. apply in_flat_map in Hp.
    destruct Hp as ([c pts] & Hcp & Hp). simpl in Hp.
    destruct (Hs _ _ Hcp) as (_ & _ & Hf). destruct (Hf p Hp) as [_ Hfind].
    apply find_some in Hfind. tauto. }
  apply NoDup_Permutation.
  - apply (NoDup_map_inv pair_of). apply NoDup_pairs; [exact NDc|].
    intros c pts Hcp. destruct (Hs _ _ Hcp) as (_ & NDd & Hf).
    split; [exact NDd|]. intros p Hp. apply Hf, Hp.
  - apply (NoDup_map_inv pair_of), ND.
  - intros q. split; [apply Hin|]. intros Hq.
    destruct (Hc q Hq) as (pts & p & Hcp & Hp & Ed).
    destruct (Hs _ _ Hcp) as (_ & _ & Hf). destruct (Hf p Hp) as [Ec Hfind].
    apply find_some in Hfind. destruct Hfind as [Hpf _].
    assert (Epq : p = q).
    { apply (NoDup_map_injective pair_of _ p q ND Hpf Hq).
      unfold pair_of. rewrite Ec, Ed. reflexivity. }
    subst q. apply in_flat_map. exists (Point.country p, pts). auto.
Qed.

(** ** The legend beside the chart *)

Section LegendFacts.
Context {host : Host}.
Variable emissionData : list Datum.t.

Lemma updateVisualization_legend (pg : Page) :
  legend (snd (updateVisualization emissionData pg))
  = legend (updateLegend (checked pg) pg).
Proof.
  destruct (filteredUnique
              (filtered emissionData (checked pg) (gas_select pg)
                 (industry_select pg))) as [unique|e] eqn:E.
  - destruct (updateVisualization_Normal emissionData pg unique E)
      as (_ & Hl & _). exact Hl.
  - rewrite (updateVisualization_Throw emissionData pg e E). reflexivity.
Qed.

Lemma filter_selected_none (gas ind : string) :
  filter (selected [] gas ind) emissionData = [].
Proof.
  induction emissionData as [|r l IH]; simpl; [reflexivity|]. exact IH.
Qed.
End LegendFacts.

(** After the first drawing and any changes, every row of the legend
    is labelled with its country. *)
Lemma run_labels (host : Host) (emissionData : list Datum.t)
    (events : list Change) (item : LegendItem) :
  In item (legend (run emissionData events)) -> text item = datum item.
Proof.
  unfold run.
  assert (Hstep : forall pg pg' : Page,
             legend pg' = legend pg ->
             (forall old, In old (legend pg) -> text old = datum old) ->
             forall it,
               In it (legend (snd (updateVisualization emissionData pg'))) ->
               text it = datum it).
  { intros pg pg' El Hl it Hit. rewrite updateVisualization_legend in Hit.
    destruct (updateLegend_labels _ _ _ Hit)
      as [Ht | (old & Hold & Ed & Et)]; [exact Ht|].
    rewrite <- Et, <- Ed. apply Hl. rewrite <- El. exact Hold. }
  assert (H : forall it,
             In it (legend (snd (updateVisualization emissionData
                                   (start emissionData)))) ->
             text it = datum it).
  { apply (Hstep (start emissionData) _ eq_refl). intros old []. }
  revert item H.
  generalize (snd (updateVisualization emissionData (start emissionData))).
  induction events as [|ev events IH]; intros pg item H; simpl; [apply H|].
  apply IH. unfold on_change. apply (Hstep pg); [reflexivity | exact H].
Qed.

(** X1.  Whether the drawing completes or throws, the legend it leaves
    has one row for each checked country.  Only the rows that enter are
    labelled: with no country checked twice, the label of a row is the
    label its country had in the legend before, and the name of the
    country when it had no row; when every row was labelled with its
    country before, every row is so after; and it is so on every page
    reached from the start by change events. *)
Theorem legend_matches_selection :
  forall (host : Host) (emissionData : list Datum.t),
    (forall pg : Page,
        Permutation
          (map datum (legend (snd (updateVisualization emissionData pg))))
          (checked pg)
        /\ (NoDup (checked pg) ->
            forall item,
              In item (legend (snd (updateVisualization emissionData pg))) ->
              text item = label_of (legend pg) (datum item))
        /\ ((forall old, In old (legend pg) -> text old = datum old) ->
            forall item,
              In item (legend (snd (updateVisualization emissionData pg))) ->
              text item = datum item))
    /\ forall (events : list Change) (item : LegendItem),
         In item (legend (run emissionData events)) ->
         text item = datum item.
Proof.
  intros host data. split; [|apply run_labels].
  intros pg. rewrite updateVisualization_legend.
  split; [apply updateLegend_rows|]. split.
  - intros ND item Hin. apply (updateLegend_label_of _ _ _ ND Hin).
  - intros Hl item Hin.
    destruct (updateLegend_labels _ _ _ Hin)
      as [Ht | (old & Hold & Ed & Et)]; [exact Ht|].
    rewrite <- Et, <- Ed. apply Hl, Hold.
Qed.

(** X9.  When the drawing completes, every line drawn is the line of a
    checked country and has its row in the legend. *)
Theorem every_line_has_a_legend_row :
  forall (host : Host) (emissionData : list Datum.t) (pg : Page)
         (path : Path),
    fst (updateVisualization emissionData pg) = Normal tt ->
    In path (lines (chartGroup (snd (updateVisualization emissionData pg)))) ->
    In (title path) (checked pg)
    /\ exists item,
         In item (legend (snd (updateVisualization emissionData pg)))
         /\ datum item = title path.
Proof.
  intros host data pg path H Hin.
  destruct (filteredUnique
              (filtered data (checked pg) (gas_select pg) (industry_select pg)))
    as [unique|e] eqn:E.
  - destruct (updateVisualization_Normal data pg unique E)
      as (_ & _ & _ & _ & Hl).
    assert (Hc : In (title path) (checked pg)).
    { apply (unique_country_selected data _ _ _ unique _ E).
      apply (f_equal (map fst)) in Hl. rewrite !map_map in Hl. simpl in Hl.
      change (map (fun x : string * list Point.t => fst x) unique)
        with (map fst unique) in Hl.
      rewrite <- Hl. apply (in_map title), Hin. }
    split; [exact Hc|].
    rewrite updateVisualization_legend.
    destruct (updateLegend_rows (checked pg) pg) as [Hp _].
    apply (Permutation_in _ (Permutation_sym Hp)) in Hc.
    apply in_map_iff in Hc. destruct Hc as (item & Ei & Hi). eauto.
  - rewrite (updateVisualization_Throw data pg e E) in H. discriminate.
Qed.

(** X10.  With no country checked the drawing completes, removes every
    row of the legend and leaves the chart group empty. *)
Theorem nothing_checked_clears_all :
  forall (host : Host) (emissionData : list Datum.t) (pg : Page),
    checked pg = [] ->
    fst (updateVisualization emissionData pg) = Normal tt
    /\ legend (snd (updateVisualization emissionData pg)) = []
    /\ chartGroup (snd (updateVisualization emissionData pg)) = [].
Proof.
  intros host data pg Hc.
  assert (E : filteredUnique
                (filtered data (checked pg) (gas_select pg)
                   (industry_select pg)) = Normal []).
  { unfold filtered. rewrite Hc, filter_selected_none. reflexivity. }
  destruct (updateVisualization_Normal data pg [] E) as (H1 & _ & H2 & _).
  split; [exact H1 | split; [|exact (H2 eq_refl)]].
  rewrite updateVisualization_legend.
  destruct (updateLegend_rows (checked pg) pg) as [Hp _].
  rewrite Hc in Hp. apply Permutation_sym, Permutation_nil in Hp.
  rewrite Hc. apply map_eq_nil in Hp. exact Hp.
Qed.

(** ** The shape of the chart *)

Lemma extent_dated {A : Type} (valueof : A -> option Z) (values : list A) :
  values <> [] ->
  (forall v, In v values -> valueof v <> None) ->
  exists lo hi,
    d3.extent values valueof = (Some lo, Some hi) /\ (lo <= hi)%Z.
Proof.
  intros Hne Hd. pose proof (extent_spec valueof values) as He.
  destruct (d3.extent values valueof) as [[lo|] [hi|]]; simpl in He;
    try contradiction.
  - exists lo, hi. split; [reflexivity|].
    destruct He as ((v & Hv & Ev) & _ & Hb). specialize (Hb v lo Hv Ev). lia.
  - exfalso. destruct values as [|v values]; [contradiction|].
    apply (Hd v); [now left|]. apply He. now left.
Qed.

Section ShapeFacts.
Context {host : Host}.
Variable emissionData : list Datum.t.

Lemma updateVisualization_complete (pg : Page) :
  complete (chartGroup pg) ->
  complete (chartGroup (snd (updateVisualization emissionData pg))).
Proof.
  intros Hpg.
  destruct (filteredUnique
              (filtered emissionData (checked pg) (gas_select pg)
                 (industry_select pg))) as [unique|e] eqn:E.
  - destruct (updateVisualization_Normal emissionData pg unique E)
      as (_ & _ & Hempty & _ & Hl).
    destruct unique as [|s unique]; [left; apply Hempty; reflexivity|].
    right.
    assert (Hs : series emissionData (checked pg) (gas_select pg)
                   (industry_select pg)
                 = Normal (map (fun cv : string * list Point.t =>
                                  (fst cv, sort byDate (snd cv)))
                               (s :: unique))).
    { unfold series. rewrite E. reflexivity. }
    destruct (series_entries emissionData _ _ _ _ Hs) as [ND He].
    destruct (series_Normal _ _ _ _ _ Hs)
      as (unique' & E' & (_ & Hd & _) & Hdate & _).
    rewrite E in E'. inv E'.
    destruct (extent_dated Point.date (flat_map snd (s :: unique)))
      as (lo & hi & Ex & Hle).
    { destruct s as [c pts]. destruct (Hd c pts (or_introl eq_refl))
        as (Hne & _). simpl. destruct pts; [contradiction | discriminate]. }
    { intros p Hp. apply in_flat_map in Hp.
      destruct Hp as ([c pts] & Hin & Hp).
      destruct (Hd _ _ Hin) as (_ & _ & Hf). destruct (Hf p Hp) as [_ Hfind].
      apply find_some in Hfind. apply Hdate. tauto. }
    rewrite (updateVisualization_chart emissionData pg (s :: unique) E)
      by discriminate.
    rewrite Ex. eexists lo, hi, _, _. split; [reflexivity|].
    split; [exact Hle|]. split; [|split].
    + intros N. rewrite N in Hl. discriminate.
    + apply (f_equal (map fst)) in Hl. rewrite !map_map in Hl. simpl in Hl.
      change (map (fun x : Path => title x)) with (map title) in Hl.
      rewrite Hl. rewrite map_map in ND. exact ND.
    + intros path Hp. destruct (He (title path) (d path)) as (_ & Hne & _).
      * rewrite <- Hl. apply in_map_iff. exists path. auto.
      * exact Hne.
  - rewrite (updateVisualization_Throw emissionData pg e E). exact Hpg.
Qed.
End ShapeFacts.

(** X11.  After the first drawing and any sequence of changes, the chart
    group is empty or holds the two axes and the lines: the horizontal
    domain runs between two dates, there is a line at least, the lines
    are those of different countries and none is without a point. *)
Theorem chart_always_complete :
  forall (host : Host) (emissionData : list Datum.t)
         (events : list Change),
    complete (chartGroup (run emissionData events)).
Proof.
  intros host data events. unfold run.
  assert (H : complete (chartGroup (snd (updateVisualization data (start data))))).
  { apply updateVisualization_complete. left. reflexivity. }
  revert H. generalize (snd (updateVisualization data (start data))).
  induction events as [|ev events IH]; intros pg H; simpl; [exact H|].
  apply IH. unfold on_change. apply updateVisualization_complete. exact H.
Qed.

(** ** A load that fails *)

Section EmptyData.
Context {host : Host}.

Lemma updateVisualization_no_data (pg : Page) :
  fst (updateVisualization [] pg) = Normal tt
  /\ chartGroup (snd (updateVisualization [] pg)) = [].
Proof.
  assert (E : filteredUnique
                (filtered [] (checked pg) (gas_select pg) (industry_select pg))
              = Normal []) by reflexivity.
  destruct (updateVisualization_Normal [] pg [] E) as (H1 & _ & H2 & _).
  split; [exact H1 | exact (H2 eq_refl)].
Qed.
End EmptyData.

(** X12.  When the fetch or the parsing of its response fails, the page
    is built on the empty array: the three selectors have no option,
    no country is checked, every drawing completes, and the chart group
    is empty after any sequence of changes. *)
Theorem failed_load_leaves_empty_page :
  forall (Response : Type) (fetch : string -> Completion Response)
         (json : Response -> Completion (list Datum.t))
         (hostname : string) (console : Console) (error : Error)
         (host : Host) (emissionData : list Datum.t)
         (events : list Change),
    (response <- fetch (dataUrl hostname) ;; json response) = Throw error ->
    fst (loadEmissionData fetch json hostname console) = Normal emissionData ->
    countries emissionData = []
    /\ gasTypes emissionData = []
    /\ industries emissionData = []
    /\ checked (start emissionData) = []
    /\ (forall pg, fst (updateVisualization emissionData pg) = Normal tt)
    /\ chartGroup (run emissionData events) = [].
Proof.
  intros Response fetch json hostname console error host data events Hf Hl.
  assert (Hd : data = []).
  { unfold loadEmissionData in Hl.
    destruct (fetch (dataUrl hostname)) as [response|e]; simpl in Hf, Hl.
    - destruct (json response); simpl in Hl; inv Hl; [discriminate|].
      reflexivity.
    - inv Hl. reflexivity. }
  subst data. do 4 (split; [reflexivity|]). split.
  - intros pg. apply updateVisualization_no_data.
  - unfold run.
    assert (H : chartGroup (snd (updateVisualization [] (start []))) = [])
      by apply updateVisualization_no_data.
    revert H. generalize (snd (updateVisualization [] (start []))).
    induction events as [|ev events IH]; intros pg H; simpl; [exact H|].
    apply IH. unfold on_change. apply updateVisualization_no_data.
Qed.

(** ** The palette *)

Lemma indexOf_nth_error (l : list string) :
  forall (i : nat) (c : string),
    NoDup l -> nth_error l i = Some c -> indexOf string_dec l c = Some i.
Proof.
  induction l as [|y l IH]; intros i c ND H.
  - destruct i; discriminate.
  - apply NoDup_cons_iff in ND. destruct ND as [Hn ND]. simpl.
    destruct i as [|i]; simpl in H.
    + inv H. destruct (string_dec c c); [reflexivity | contradiction].
    + destruct (string_dec y c) as [-> | N].
      * exfalso. apply Hn. eapply nth_error_In, H.
      * rewrite (IH i c ND H). reflexivity.
Qed.

Lemma schemeTableau10_NoDup : NoDup d3.schemeTableau10.
Proof.
  unfold d3.schemeTableau10.
  repeat (constructor;
          [simpl; intros H;
           repeat (destruct H as [H | H]; [discriminate H|]); exact H|]).
  constructor.
Qed.

(** X13.  At the start the country of rank [i] in the list of countries
    is given the colour of rank [i mod 10] of the palette: two countries
    whose ranks differ by a multiple of ten have the same colour, and
    the first ten countries have ten different colours. *)
Theorem palette_wraps_after_ten :
  forall (emissionData : list Datum.t) (i j : nat) (c c' : string),
    nth_error (countries emissionData) i = Some c ->
    nth_error (countries emissionData) j = Some c' ->
    fst (d3.call (color (start emissionData)) c)
    = nth_error d3.schemeTableau10 (i mod 10)
    /\ (i mod 10 = j mod 10 ->
        fst (d3.call (color (start emissionData)) c)
        = fst (d3.call (color (start emissionData)) c'))
    /\ (i < 10 -> j < 10 -> i <> j ->
        fst (d3.call (color (start emissionData)) c)
        <> fst (d3.call (color (start emissionData)) c')).
Proof.
  intros data i j c c' Hi Hj.
  assert (ND : NoDup (countries data)) by apply new_Set_NoDup.
  assert (Hc : forall k x, nth_error (countries data) k = Some x ->
                 fst (d3.call (color (start data)) x)
                 = nth_error d3.schemeTableau10 (k mod 10)).
  { intros k x Hk.
    rewrite (proj2 (call_keeps (countries data) _ x (start_keeps data))
               (nth_error_In _ _ Hk)).
    unfold assigned. rewrite (indexOf_nth_error _ k x ND Hk). reflexivity. }
  rewrite (Hc i c Hi), (Hc j c' Hj). split; [reflexivity|]. split.
  - intros E. rewrite E. reflexivity.
  - intros Hi10 Hj10 Hne E. apply Hne.
    rewrite !Nat.mod_small in E by assumption.
    apply (proj1 (NoDup_nth_error d3.schemeTableau10) schemeTableau10_NoDup);
      [exact Hi10 | exact E].
Qed.

(** ** The domains and the order of the points *)

Lemma lt_antisym (a b : number) :
  a <> NaN -> b <> NaN ->
  JS.lt a b = false -> JS.lt b a = false -> a = b.
Proof.
  destruct a as [| |x|], b as [| |y|]; simpl; intros Ha Hb H1 H2;
    try reflexivity; try discriminate; try contradiction.
  destruct (x ?= y)%Qc eqn:E1; try discriminate.
  - apply Qceq_alt in E1. rewrite E1. reflexivity.
  - assert (E2 : (y ?= x)%Qc = Lt).
    { apply Qclt_alt. apply Qcgt_alt in E1. exact E1. }
    rewrite E2 in H2. discriminate.
Qed.

Lemma extent_Permutation {A : Type} (valueof : A -> option Z)
    (l l' : list A) :
  Permutation l l' -> d3.extent l valueof = d3.extent l' valueof.
Proof.
  intros Hp. pose proof (extent_spec valueof l) as H.
  pose proof (extent_spec valueof l') as H'.
  destruct (d3.extent l valueof) as [[lo|] [hi|]]; simpl in H;
    try contradiction;
    destruct (d3.extent l' valueof) as [[lo'|] [hi'|]]; simpl in H';
    try contradiction.
  - destruct H as ((vl & Hvl & El) & (vh & Hvh & Eh) & Hb).
    destruct H' as ((vl' & Hvl' & El') & (vh' & Hvh' & Eh') & Hb').
    pose proof (Hb' vl lo (Permutation_in _ Hp Hvl) El).
    pose proof (Hb' vh hi (Permutation_in _ Hp Hvh) Eh).
    pose proof (Hb vl' lo' (Permutation_in _ (Permutation_sym Hp) Hvl') El').
    pose proof (Hb vh' hi' (Permutation_in _ (Permutation_sym Hp) Hvh') Eh').
    f_equal; f_equal; lia.
  - exfalso. destruct H as ((vl & Hvl & El) & _).
    rewrite (H' vl (Permutation_in _ Hp Hvl)) in El. discriminate.
  - exfalso. destruct H' as ((vl & Hvl & El) & _).
    rewrite (H vl (Permutation_in _ (Permutation_sym Hp) Hvl)) in El.
    discriminate.
  - reflexivity.
Qed.

Lemma max_Permutation {A : Type} (valueof : A -> number) (l l' : list A) :
  Permutation l l' -> d3.max l valueof = d3.max l' valueof.
Proof.
  intros Hp. pose proof (max_spec valueof l) as H.
  pose proof (max_spec valueof l') as H'.
  destruct (d3.max l valueof) as [m|], (d3.max l' valueof) as [m'|];
    simpl in H, H'.
  - destruct H as (Hn & (v & Hv & Ev) & Hb).
    destruct H' as (Hn' & (v' & Hv' & Ev') & Hb').
    f_equal. apply lt_antisym; auto.
    + rewrite <- Ev'. apply Hb. apply (Permutation_in _ (Permutation_sym Hp)).
      exact Hv'.
    + rewrite <- Ev. apply Hb'. apply (Permutation_in _ Hp). exact Hv.
  - exfalso. destruct H as (Hn & (v & Hv & Ev) & _). apply Hn.
    rewrite <- Ev. apply H'. apply (Permutation_in _ Hp). exact Hv.
  - exfalso. destruct H' as (Hn & (v & Hv & Ev) & _). apply Hn.
    rewrite <- Ev. apply H. apply (Permutation_in _ (Permutation_sym Hp)).
    exact Hv.
  - reflexivity.
Qed.

Lemma flat_map_map {A B C : Type} (f : A -> B) (g : B -> list C)
    (l : list A) :
  flat_map g (map f l) = flat_map (fun x => g (f x)) l.
Proof.
  induction l as [|a l IH]; simpl; [reflexivity|]. rewrite IH. reflexivity.
Qed.

(** X14.  The two domains are those of the points of the lines drawn:
    they are computed before the arrays are sorted, and the order of the
    points does not change them. *)
Theorem axes_fit_the_lines_drawn :
  forall (host : Host) (emissionData : list Datum.t) (pg : Page),
    fst (updateVisualization emissionData pg) = Normal tt ->
    lines (chartGroup (snd (updateVisualization emissionData pg))) <> [] ->
    horizontal (chartGroup (snd (updateVisualization emissionData pg)))
    = Some (d3.extent
              (flat_map d
                 (lines (chartGroup
                           (snd (updateVisualization emissionData pg)))))
              Point.date)
    /\ vertical (chartGroup (snd (updateVisualization emissionData pg)))
       = Some (nice (Finite (Q2Qc 0),
                     top (flat_map d
                            (lines (chartGroup
                                      (snd (updateVisualization
                                              emissionData pg))))))).
Proof.
  intros host data pg H Hne.
  destruct (filteredUnique
              (filtered data (checked pg) (gas_select pg) (industry_select pg)))
    as [unique|e] eqn:E.
  - destruct (updateVisualization_Normal data pg unique E)
      as (_ & _ & _ & Hdom & Hl).
    assert (Hu : unique <> []).
    { intros ->. simpl in Hl. apply map_eq_nil in Hl. contradiction. }
    destruct (Hdom Hu) as [Hx Hy].
    assert (Hp : Permutation
                   (flat_map d
                      (lines (chartGroup (snd (updateVisualization data pg)))))
                   (flat_map snd unique)).
    { rewrite <- flat_map_snd_Permutation, <- Hl, flat_map_map. reflexivity. }
    split.
    + rewrite Hx. f_equal. symmetry. apply extent_Permutation, Hp.
    + rewrite Hy. unfold top. rewrite (max_Permutation _ _ _ Hp). reflexivity.
  - rewrite (updateVisualization_Throw data pg e E) in H. discriminate.
Qed.

(** ** Rows that enter *)

Lemma nodeByKeyValue_keys (keys : list string) :
  forall (i : nat) (byKey : list (string * nat)) (kv : string * nat),
    In kv (d3.nodeByKeyValue keys i byKey) ->
    In kv byKey \/ In (fst kv) keys.
Proof.
  induction keys as [|k keys IH]; intros i byKey kv H; simpl in H.
  - now left.
  - apply IH in H. destruct H as [H | H]; [|right; now right].
    destruct (includes string_dec (map fst byKey) k); [now left|].
    apply in_app_or in H. destruct H as [H | [<- | []]]; [now left|].
    right. now left.
Qed.

Lemma Map_get_None (byKey : list (string * nat)) (d0 : string) :
  ~ In d0 (map fst byKey) -> d3.Map_get byKey d0 = None.
Proof.
  intros H. unfold d3.Map_get.
  destruct (find (fun kv => String.eqb (fst kv) d0) byKey) as [kv|] eqn:E;
    [|reflexivity].
  apply find_some in E. destruct E as [Hin E]. apply String.eqb_eq in E.
  exfalso. apply H. rewrite <- E. apply in_map, Hin.
Qed.

Lemma bindKey_all_enter (byKey : list (string * nat)) (data : list string) :
  (forall d0, In d0 data -> ~ In d0 (map fst byKey)) ->
  d3.bindKey byKey data = map (fun d0 => (d0, None)) data.
Proof.
  induction data as [|d0 data IH]; intros H; simpl; [reflexivity|].
  rewrite (Map_get_None byKey d0 (H d0 (or_introl eq_refl))).
  rewrite IH; [reflexivity|]. intros d1 Hd1. apply H. now right.
Qed.

Lemma filter_all {A : Type} (f : A -> bool) (l : list A) :
  (forall x, In x l -> f x = true) -> filter f l = l.
Proof.
  intros H. rewrite (filter_ext_in f (fun _ => true) l H).
  apply filter_true.
Qed.

Lemma filter_none {A : Type} (f : A -> bool) (l : list A) :
  (forall x, In x l -> f x = false) -> filter f l = [].
Proof.
  induction l as [|a l IH]; intros H; simpl; [reflexivity|].
  rewrite (H a (or_introl eq_refl)). apply IH. intros x Hx. apply H.
  now right.
Qed.

Lemma find_all_false {A : Type} (f : A -> bool) (l : list A) :
  (forall x, In x l -> f x = false) -> find f l = None.
Proof.
  induction l as [|a l IH]; intros H; simpl; [reflexivity|].
  rewrite (H a (or_introl eq_refl)). apply IH. intros x Hx. apply H.
  now right.
Qed.

Lemma flat_map_nil {A B : Type} (l : list A) :
  flat_map (fun _ : A => @nil B) l = [].
Proof. induction l as [|a l IH]; simpl; [reflexivity | exact IH]. Qed.

Lemma insertBefore_append {T : Type} (child : nat * T)
    (children : list (nat * T)) :
  d3.insertBefore None child children = children ++ [child].
Proof.
  induction children as [|c children IH]; simpl; [reflexivity|].
  rewrite IH. reflexivity.
Qed.

Lemma fold_insertBefore_append {I T : Type} (next : I -> option nat)
    (child : I -> nat * T) (items : list I) :
  (forall it, In it items -> next it = None) ->
  forall children : list (nat * T),
    fold_left
      (fun children it => d3.insertBefore (next it) (child it) children)
      items children
    = children ++ map child items.
Proof.
  induction items as [|it items IH]; intros H children; simpl.
  - rewrite app_nil_r. reflexivity.
  - rewrite (H it (or_introl eq_refl)), insertBefore_append.
    rewrite IH by (intros it' Hit'; apply H; now right).
    rewrite <- app_assoc. reflexivity.
Qed.

(** X2.  When no checked country has a row in the legend yet, as at the
    first drawing, the legend becomes the list of the checked countries,
    in their order, each row coloured by the scale in that order. *)
Theorem legend_rows_enter_in_selection_order :
  forall (selectedCountries : list string) (pg : Page),
    (forall c, In c selectedCountries -> ~ In c (map datum (legend pg))) ->
    map datum (legend (updateLegend selectedCountries pg))
    = selectedCountries
    /\ map background_color (legend (updateLegend selectedCountries pg))
       = fst (colors (color pg) selectedCountries).
Proof.
  intros sel pg Hnew. unfold updateLegend.
  set (byKey := d3.nodeByKeyValue (map datum (legend pg)) 0 []).
  assert (Hb : d3.bindKey byKey sel = map (fun d0 => (d0, None)) sel).
  { apply bindKey_all_enter. intros d0 Hd0 Hin. apply (Hnew d0 Hd0).
    apply in_map_iff in Hin. destruct Hin as (kv & <- & Hkv).
    apply nodeByKeyValue_keys in Hkv. destruct Hkv as [[] | Hkv]. exact Hkv. }
  rewrite Hb.
  set (joined := combine _ _).
  set (isEnter := fun b : nat * (string * option nat) =>
                    match snd (snd b) with None => true | Some _ => false end).
  assert (Hall : forall b, In b joined -> isEnter b = true).
  { intros [j [d0 o]] Hin. unfold joined in Hin. apply in_combine_r in Hin.
    apply in_map_iff in Hin. destruct Hin as (d1 & E & _). inv E.
    reflexivity. }
  assert (Hjoined : map (fun b : nat * (string * option nat) => fst (snd b))
                        joined = sel).
  { unfold joined. rewrite <- (map_map snd fst).
    rewrite map_snd_combine by (rewrite length_seq, length_map; reflexivity).
    rewrite map_map. simpl. apply map_id. }
  rewrite (filter_all isEnter joined Hall).
  rewrite (filter_none
             (fun b : nat * (string * option nat) =>
                negb match snd (snd b) with
                     | Some _ => false
                     | None => true
                     end) joined)
    by (intros b Hin; fold (isEnter b); rewrite (Hall b Hin); reflexivity).
  rewrite Hjoined. clearbody joined. cbn [combine map filter].
  rewrite (flat_map_nil (seq 0 (List.length (legend pg)))).
  rewrite fold_insertBefore_append.
  - cbn [legend app]. rewrite !map_map. cbn [snd fst datum background_color].
    split.
    + rewrite <- (map_map fst (fun b : nat * (string * option nat) =>
                                 fst (snd b))).
      rewrite map_fst_combine
        by (rewrite colors_length, <- Hjoined, length_map; reflexivity).
      exact Hjoined.
    + apply map_snd_combine.
      rewrite colors_length, <- Hjoined, length_map. reflexivity.
  - intros it _.
    rewrite (find_all_false _ joined); [reflexivity|].
    intros b Hin. fold (isEnter b). rewrite (Hall b Hin).
    apply andb_false_r.
Qed.

(** X15.  When no point has a number for its emissions, the drawing still
    completes, and the vertical domain is the rounding of the domain
    from zero to NaN, which the rounding of d3 leaves as it is. *)
Theorem no_numeric_emissions_gives_NaN_domain :
  forall (host : Host) (emissionData : list Datum.t) (pg : Page)
         (unique : list (string * list Point.t)),
    filteredUnique
      (filtered emissionData (checked pg) (gas_select pg)
         (industry_select pg)) = Normal unique ->
    unique <> [] ->
    (forall p, In p (flat_map snd unique) -> Point.emissions p = NaN) ->
    fst (updateVisualization emissionData pg) = Normal tt
    /\ vertical (chartGroup (snd (updateVisualization emissionData pg)))
       = Some (nice (Finite (Q2Qc 0), NaN))
    /\ d3.nice (Finite (Q2Qc 0), NaN) = (Finite (Q2Qc 0), NaN).
Proof.
  intros host data pg unique E Hne Hnan.
  destruct (updateVisualization_Normal data pg unique E)
    as (H1 & _ & _ & Hdom & _).
  destruct (Hdom Hne) as [_ Hy].
  split; [exact H1 | split; [|reflexivity]].
  rewrite Hy. unfold top.
  pose proof (max_spec Point.emissions (flat_map snd unique)) as Hm.
  destruct (d3.max (flat_map snd unique) Point.emissions) as [m|];
    [|reflexivity].
  simpl in Hm. destruct Hm as (Hn & (v & Hv & Ev) & _).
  exfalso. apply Hn. rewrite <- Ev. apply Hnan, Hv.
Qed.

(** ** A scale that only grows *)

Lemma extends_refl (s : d3.Ordinal) : extends s s.
Proof. split; [exists []; rewrite app_nil_r|]; reflexivity. Qed.

Lemma extends_trans (s1 s2 s3 : d3.Ordinal) :
  extends s1 s2 -> extends s2 s3 -> extends s1 s3.
Proof.
  intros [(e1 & H1) R1] [(e2 & H2) R2]. split.
  - exists (e1 ++ e2). rewrite H2, H1, app_assoc. reflexivity.
  - rewrite R2. exact R1.
Qed.

Lemma call_extends (s : d3.Ordinal) (d0 : string) :
  extends s (snd (d3.call s d0)).
Proof.
  unfold d3.call. destruct (indexOf string_dec (d3.domain s) d0); simpl.
  - apply extends_refl.
  - split; [exists [d0]|]; reflexivity.
Qed.

Lemma colors_extends (ds : list string) :
  forall s : d3.Ordinal, extends s (snd (colors s ds)).
Proof.
  induction ds as [|d0 ds IH]; intros s; simpl.
  - apply extends_refl.
  - eapply extends_trans; [apply call_extends | apply IH].
Qed.

Lemma updateLegend_extends (selectedCountries : list string) (pg : Page) :
  extends (color pg) (color (updateLegend selectedCountries pg)).
Proof.
  unfold updateLegend. cbn [color].
  eapply extends_trans; apply colors_extends.
Qed.

Lemma extends_call (s s' : d3.Ordinal) (d0 : string) :
  extends s s' -> In d0 (d3.domain s) ->
  d3.call s' d0 = (fst (d3.call s d0), s').
Proof.
  intros [(extra & Hd) Hr] Hin. unfold d3.call.
  rewrite Hd, (indexOf_app _ _ _ Hin).
  destruct (indexOf_In _ _ Hin) as (i & ->). simpl.
  unfold d3.range_at. rewrite Hr. reflexivity.
Qed.

(** X16.  A drawing never changes what the scale answers for a value that
    is in its domain already: it only appends to the domain the values
    it meets for the first time, so that a colour once given is kept,
    also for a value that is not a country of the data. *)
Theorem color_once_given_is_kept :
  forall (host : Host) (emissionData : list Datum.t) (pg : Page)
         (c : string),
    In c (d3.domain (color pg)) ->
    extends (color pg) (color (snd (updateVisualization emissionData pg)))
    /\ d3.call (color (snd (updateVisualization emissionData pg))) c
       = (fst (d3.call (color pg) c),
          color (snd (updateVisualization emissionData pg))).
Proof.
  intros host data pg c Hin.
  assert (He : extends (color pg)
                 (color (snd (updateVisualization data pg)))).
  { pose proof (updateLegend_extends (checked pg) pg) as Hl.
    destruct (filteredUnique
                (filtered data (checked pg) (gas_select pg)
                   (industry_select pg))) as [unique|e] eqn:E.
    - unfold updateVisualization. cbv zeta. rewrite E.
      destruct unique as [|s unique]; [exact Hl|].
      change (List.length (s :: unique) =? 0) with false. cbv iota.
      cbn [snd color]. eapply extends_trans; [exact Hl|].
      apply colors_extends.
    - rewrite (updateVisualization_Throw data pg e E). exact Hl. }
  split; [exact He | exact (extends_call _ _ c He Hin)].
Qed.


(** ** The small data file, again *)

Lemma legend_rows_enter_in_selection_order_sample :
  map datum (legend (updateLegend ["USA"; "Canada"]
                       (Sample.page ["USA"; "Canada"])))
  = ["USA"; "Canada"]
  /\ map background_color
         (legend (updateLegend ["USA"; "Canada"]
                    (Sample.page ["USA"; "Canada"])))
     = fst (colors (color (Sample.page ["USA"; "Canada"])) ["USA"; "Canada"]).
Proof.
  apply (legend_rows_enter_in_selection_order ["USA"; "Canada"]
           (Sample.page ["USA"; "Canada"])).
  intros c _ H. simpl in H. exact H.
Defined.

Lemma lines_in_first_seen_order_sample :
  fst (updateVisualization (host:=browser) Sample.data
         (Sample.page ["Canada"; "USA"])) = Normal tt
  /\ map title
         (lines (chartGroup
                   (snd (updateVisualization (host:=browser) Sample.data
                           (Sample.page ["Canada"; "USA"])))))
     = getUniqueValues string_dec
         (filter (selected ["Canada"; "USA"] "CO2" "Power") Sample.data)
         Datum.Country.
Proof.
  assert (H : fst (updateVisualization (host:=browser) Sample.data
                     (Sample.page ["Canada"; "USA"])) = Normal tt)
    by (vm_compute; reflexivity).
  split; [exact H|].
  exact (lines_in_first_seen_order browser Sample.data
           (Sample.page ["Canada"; "USA"]) H).
Defined.

Lemma series_of_country_unchanged_sample :
  series (host:=browser) Sample.broken ["Canada"] "CO2" "Power"
  = Normal [("Canada", [point (host:=browser) Sample.canada_jan;
                        point (host:=browser) Sample.canada_apr])]
  /\ series (host:=browser) Sample.broken ["Canada"; "USA"] "CO2" "Power"
     = Throw TypeError
  /\ ((exists out',
         series (host:=browser) Sample.broken ["Canada"; "USA"] "CO2" "Power"
         = Normal out'
         /\ In ("Canada", [point (host:=browser) Sample.canada_jan;
                           point (host:=browser) Sample.canada_apr]) out')
      \/ (series (host:=browser) Sample.broken ["Canada"; "USA"] "CO2"
            "Power" = Throw TypeError
          /\ exists r,
               In r Sample.broken
               /\ selected ["Canada"; "USA"] "CO2" "Power" r = true
               /\ ~ In (Datum.Country r) ["Canada"]
               /\ parseDate (Host:=browser) (Datum.date r) = None)).
Proof.
  assert (H : series (host:=browser) Sample.broken ["Canada"] "CO2" "Power"
              = Normal [("Canada", [point (host:=browser) Sample.canada_jan;
                                    point (host:=browser) Sample.canada_apr])])
    by (vm_compute; reflexivity).
  split; [exact H|]. split; [vm_compute; reflexivity|].
  apply (series_of_country_unchanged browser Sample.broken
           ["Canada"] ["Canada"; "USA"] "CO2" "Power" _ "Canada" _ H).
  - simpl. left. reflexivity.
  - simpl. left. reflexivity.
Defined.

Lemma legend_matches_selection_sample :
  NoDup (checked Sample.relabelled)
  /\ map text
         (legend (snd (updateVisualization (host:=browser) Sample.data
                         Sample.relabelled)))
     = ["Canada"; "United States"]
  /\ forall item,
       In item (legend (snd (updateVisualization (host:=browser) Sample.data
                               Sample.relabelled))) ->
       text item = label_of (legend Sample.relabelled) (datum item).
Proof.
  assert (ND : NoDup (checked Sample.relabelled)).
  { simpl. apply NoDup_cons.
    - simpl. intros [H | []]. discriminate H.
    - apply NoDup_cons; [intros [] | apply NoDup_nil]. }
  split; [exact ND|]. split; [vm_compute; reflexivity|].
  exact (proj1 (proj2 (proj1 (legend_matches_selection browser Sample.data)
                         Sample.relabelled)) ND).
Defined.

Lemma every_selected_record_is_represented_sample :
  parseDate (Host:=browser) (Datum.date Sample.usa_jan_again) <> None
  /\ exists pts p,
       In (Datum.Country Sample.usa_jan_again, pts)
          [("USA", [point (host:=browser) Sample.usa_jan;
                    point (host:=browser) Sample.usa_apr])]
       /\ In p pts
       /\ Point.date p
          = parseDate (Host:=browser) (Datum.date Sample.usa_jan_again).
Proof.
  apply (every_selected_record_is_represented browser Sample.data
           ["USA"] "CO2" "Power").
  - vm_compute. reflexivity.
  - simpl. right. right. left. reflexivity.
  - reflexivity.
Defined.

Lemma lines_strictly_ascending_sample :
  d {| stroke := Some "#f28e2c";
       d := [point (host:=browser) Sample.canada_jan;
             point (host:=browser) Sample.canada_apr];
       title := "Canada" |} <> []
  /\ StronglySorted earlier
       (d {| stroke := Some "#f28e2c";
             d := [point (host:=browser) Sample.canada_jan;
                   point (host:=browser) Sample.canada_apr];
             title := "Canada" |}).
Proof.
  apply (lines_strictly_ascending browser Sample.data
           (Sample.page ["Canada"])).
  - vm_compute. reflexivity.
  - vm_compute. left. reflexivity.
Defined.

Lemma deduplication_drops_nothing_without_duplicates_sample :
  Permutation
    (flat_map snd
       [("Canada", [point (host:=browser) Sample.canada_jan;
                    point (host:=browser) Sample.canada_apr])])
    (filtered (host:=browser) Sample.data ["Canada"] "CO2" "Power").
Proof.
  apply (deduplication_drops_nothing_without_duplicates browser Sample.data
           ["Canada"] "CO2" "Power").
  - vm_compute. reflexivity.
  - vm_compute. constructor.
    + simpl. intros [H | []]. discriminate H.
    + constructor; [intros [] | constructor].
Defined.

Lemma every_line_has_a_legend_row_sample :
  In (title {| stroke := Some "#f28e2c";
               d := [point (host:=browser) Sample.canada_jan;
                     point (host:=browser) Sample.canada_apr];
               title := "Canada" |}) ["Canada"]
  /\ exists item,
       In item (legend (snd (updateVisualization (host:=browser) Sample.data
                               (Sample.page ["Canada"]))))
       /\ datum item = "Canada".
Proof.
  apply (every_line_has_a_legend_row browser Sample.data
           (Sample.page ["Canada"])
           {| stroke := Some "#f28e2c";
              d := [point (host:=browser) Sample.canada_jan;
                    point (host:=browser) Sample.canada_apr];
              title := "Canada" |}).
  - vm_compute. reflexivity.
  - vm_compute. left. reflexivity.
Defined.

Lemma nothing_checked_clears_all_sample :
  fst (updateVisualization (host:=browser) Sample.data (Sample.page []))
  = Normal tt
  /\ legend (snd (updateVisualization (host:=browser) Sample.data
                    (Sample.page []))) = []
  /\ chartGroup (snd (updateVisualization (host:=browser) Sample.data
                        (Sample.page []))) = [].
Proof.
  apply (nothing_checked_clears_all browser Sample.data (Sample.page [])).
  reflexivity.
Defined.

Lemma failed_load_leaves_empty_page_sample :
  countries [] = []
  /\ gasTypes [] = []
  /\ industries [] = []
  /\ checked (start []) = []
  /\ (forall pg, fst (updateVisualization (host:=browser) [] pg) = Normal tt)
  /\ chartGroup
       (run (host:=browser) []
          [{| checkboxes := ["USA"]; gas := "CO2"; industry := "Power" |}])
     = [].
Proof.
  apply (failed_load_leaves_empty_page unit
           (fun _ : string => Throw TypeError)
           (fun _ : unit => Normal Sample.data)
           "localhost" [] TypeError browser []).
  - reflexivity.
  - reflexivity.
Defined.

Lemma palette_wraps_after_ten_sample :
  fst (d3.call (color (start Sample.data)) "USA")
  = nth_error d3.schemeTableau10 (0 mod 10)
  /\ (0 mod 10 = 1 mod 10 ->
      fst (d3.call (color (start Sample.data)) "USA")
      = fst (d3.call (color (start Sample.data)) "Canada"))
  /\ (0 < 10 -> 1 < 10 -> 0 <> 1 ->
      fst (d3.call (color (start Sample.data)) "USA")
      <> fst (d3.call (color (start Sample.data)) "Canada")).
Proof.
  apply (palette_wraps_after_ten Sample.data 0 1 "USA" "Canada").
  - reflexivity.
  - reflexivity.
Defined.

Lemma axes_fit_the_lines_drawn_sample :
  horizontal (chartGroup
                (snd (updateVisualization (host:=browser) Sample.data
                        (Sample.page ["Canada"]))))
  = Some (d3.extent
            (flat_map d
               (lines (chartGroup
                         (snd (updateVisualization (host:=browser)
                                 Sample.data (Sample.page ["Canada"]))))))
            Point.date)
  /\ vertical (chartGroup
                 (snd (updateVisualization (host:=browser) Sample.data
                         (Sample.page ["Canada"]))))
     = Some (nice (Host:=browser)
               (Finite (Q2Qc 0),
                top (flat_map d
                       (lines (chartGroup
                                 (snd (updateVisualization (host:=browser)
                                         Sample.data
                                         (Sample.page ["Canada"])))))))).
Proof.
  apply (axes_fit_the_lines_drawn browser Sample.data (Sample.page ["Canada"])).
  - vm_compute. reflexivity.
  - vm_compute. discriminate.
Defined.

Lemma no_numeric_emissions_gives_NaN_domain_sample :
  fst (updateVisualization (host:=browser) Sample.unread (Sample.page ["USA"]))
  = Normal tt
  /\ vertical (chartGroup
                 (snd (updateVisualization (host:=browser) Sample.unread
                         (Sample.page ["USA"]))))
     = Some (nice (Host:=browser) (Finite (Q2Qc 0), NaN))
  /\ d3.nice (Finite (Q2Qc 0), NaN) = (Finite (Q2Qc 0), NaN).
Proof.
  apply (no_numeric_emissions_gives_NaN_domain browser Sample.unread
           (Sample.page ["USA"])
           [("USA", [point (host:=browser) Sample.usa_jan_unread])]).
  - vm_compute. reflexivity.
  - discriminate.
  - intros p [<- | []]. vm_compute. reflexivity.
Defined.

Lemma color_once_given_is_kept_sample :
  extends (color (Sample.page ["Canada"]))
    (color (snd (updateVisualization (host:=browser) Sample.data
                   (Sample.page ["Canada"]))))
  /\ d3.call
       (color (snd (updateVisualization (host:=browser) Sample.data
                      (Sample.page ["Canada"])))) "USA"
     = (fst (d3.call (color (Sample.page ["Canada"])) "USA"),
        color (snd (updateVisualization (host:=browser) Sample.data
                      (Sample.page ["Canada"])))).
Proof.
  apply (color_once_given_is_kept browser Sample.data (Sample.page ["Canada"])
           "USA").
  vm_compute. left. reflexivity.
Defined.
